(** * nodejs-lsd-logger: the message-to-file write path

    A shallow embedding of [src/index.ts]: the time bucketer
    ([getFileName]), the two writers ([writeToFile],
    [writeToFileWithLock]), the scoped umask override ([writeData]), the
    submission entry point ([writeLog]) and the retry queue
    ([tryToWriteStoredData] and its timer callback).

    Conventions.
    - A JavaScript string is its sequence of UTF-16 code units.
    - The process state the module touches (umask, the module-level
      [STORED_MESSAGES] array and [repeatTimer] variable, the timers pending
      in the event loop, open file handles, and the log of calls made to the
      platform) is an explicit [World] threaded through every function.
    - What the platform answers (does [open] fail, is the lock held, ...)
      is an argument of the function that asks: a record of responses. *)

From Stdlib Require Import List ZArith NArith Arith Lia Bool String Ascii.
From Stdlib Require Import Permutation Relations.
Import ListNotations.

Local Open Scope list_scope.

(* ================================================================== *)
(** ** JavaScript strings *)

Module JS.

(** One UTF-16 code unit. *)
Definition code_unit := N.

Definition js_string := list code_unit.

(** [s.length] *)
Definition length (s : js_string) : nat := List.length s.

(** An ASCII literal of the source as a JavaScript string. *)
Definition lit (s : string) : js_string :=
  List.map N_of_ascii (list_ascii_of_string s).

(** The double-quote character, which the source writes inside its
    template literals. *)
Definition dq : js_string := [34%N].

(** Decimal digit [d] (0..9) as a code unit. *)
Definition digit (d : N) : code_unit := (48 + d)%N.


(** Decimal rendering of a natural number, most significant digit first,
    no padding: the fuel bounds the number of digits. *)
Fixpoint digits_fuel (fuel : nat) (n : N) : js_string :=
  match fuel with
  | O => []
  | S f =>
      if (n <? 10)%N then [digit n]
      else digits_fuel f (n / 10)%N ++ [digit (n mod 10)%N]
  end.

Definition digits (n : N) : js_string :=
  digits_fuel (S (N.to_nat (N.log2 n))) n.

(** [String.prototype.repeat] restricted to what [padStart] needs: the
    first [k] code units of [pad] repeated. *)
Fixpoint fill (k : nat) (pad cur : js_string) (fuel : nat) : js_string :=
  match k with
  | O => []
  | S k' =>
      match cur with
      | c :: cur' => c :: fill k' pad cur' fuel
      | [] =>
          match pad, fuel with
          | c :: pad', S fuel' => c :: fill k' pad pad' fuel'
          | _, _ => []
          end
      end
  end.

(** [s.padStart(targetLength, padString)] *)
Definition padStart (targetLength : nat) (padString s : js_string)
  : js_string :=
  if targetLength <=? length s then s
  else
    let k := targetLength - length s in
    fill k padString padString k ++ s.

(** Number of bytes of the UTF-8 encoding Node writes for a string: one
    to three bytes per code unit of the Basic Multilingual Plane, four for
    a surrogate pair, three (U+FFFD) for a lone surrogate. *)
Definition is_high_surrogate (c : code_unit) : bool :=
  ((55296 <=? c) && (c <=? 56319))%N.
Definition is_low_surrogate (c : code_unit) : bool :=
  ((56320 <=? c) && (c <=? 57343))%N.

Fixpoint utf8_length (s : js_string) : nat :=
  match s with
  | [] => 0
  | c :: rest =>
      if (c <? 128)%N then 1 + utf8_length rest
      else if (c <? 2048)%N then 2 + utf8_length rest
      else if is_high_surrogate c then
        match rest with
        | c' :: rest' =>
            if is_low_surrogate c' then 4 + utf8_length rest'
            else 3 + utf8_length rest
        | [] => 3
        end
      else 3 + utf8_length rest
  end.

End JS.

Import JS.

(* ================================================================== *)
(** ** Wall-clock time and [Intl.DateTimeFormat] *)

(** [new Date()] as the formatter sees it: the fields of the local civil
    time (years of the common era). *)
Record Date := mkDate {
  year : N;
  month : N;        (* 1..12 *)
  day : N;          (* 1..31 *)
  hour : N;         (* 0..23 *)
  minute : N;       (* 0..59 *)
  second : N;       (* 0..59 *)
  millisecond : N   (* 0..999 *)
}.




Module Intl.

(** Where engines differ on the options the source passes: a lone
    [minute: '2-digit'] is rendered with or without its leading zero (hence
    the [padStart] of the source). *)
Record engine := {
  minute_padded : bool
}.

Definition two_digit (n : N) : js_string :=
  padStart 2 (lit "0") (digits n).

(** [{ year: 'numeric' }] *)
Definition format_year (d : Date) : js_string := digits (year d).

(** [{ month: '2-digit' }] *)
Definition format_month (d : Date) : js_string := two_digit (month d).

(** [{ day: '2-digit' }] *)
Definition format_day (d : Date) : js_string := two_digit (day d).

(** [{ hour: '2-digit', hour12: false }]: the hour of the 24-hour clock,
    00 to 23. *)
Definition format_hour (d : Date) : js_string := two_digit (hour d).

(** [{ minute: '2-digit' }] *)
Definition format_minute (e : engine) (d : Date) : js_string :=
  if minute_padded e then two_digit (minute d) else digits (minute d).

End Intl.

(** [getFileName], with the engine and the value of [new Date()] made
    explicit. *)
Definition getFileName (e : Intl.engine) (now : Date) : js_string :=
  let year := Intl.format_year now in
  let month := Intl.format_month now in
  let day := Intl.format_day now in
  let hour := Intl.format_hour now in
  let minute := padStart 2 (lit "0") (Intl.format_minute e now) in
  year ++ month ++ day ++ hour ++ minute ++ lit "00".




Definition feb12 : Date := mkDate 2023 2 12 16 26 3 0.
Definition modern : Intl.engine :=
  {| Intl.minute_padded := false |}.

(* ================================================================== *)
(** ** Messages, exceptions and the process state *)

Definition MAX_MESSAGE_SIZE : nat := 4096.
Definition FILE_PERMISSION : Z := 438.   (* 0o666 *)
Definition RETRY_DELAY : Z := 100.

Record IMessage := mkMessage {
  filePath : js_string;
  message : js_string;
  isLargeData : bool
}.

Inductive ERRORS := FILE_LOCKED.

(** What the code throws or rejects with: a [LogException] (with its
    optional [code]) or a plain [Error]. *)
Inductive exn :=
| LogException (text : js_string) (code : option ERRORS)
| Error (text : js_string).

Definition exn_code (e : exn) : option ERRORS :=
  match e with
  | LogException _ c => c
  | Error _ => None
  end.

Definition exn_message (e : exn) : js_string :=
  match e with
  | LogException t _ => t
  | Error t => t
  end.

(** [logError.code === 'FILE_LOCKED'] *)
Definition is_file_locked (e : exn) : bool :=
  match exn_code e with
  | Some FILE_LOCKED => true
  | None => false
  end.

(** How an awaited promise ends. [Pending] is a promise nobody settles. *)
Inductive completion :=
| Resolved
| Rejected (e : exn)
| Pending.

Inductive flock_op := LOCK_EX_NB | LOCK_UN.   (* 'exnb', 'un' *)

(** Calls made to the platform, and the settling of the writer's promise,
    in program order. *)
Inductive event :=
| EvUmask (mask : Z)
| EvAccess (path : js_string)
| EvMkdir (path : js_string) (mode : Z)
| EvChmod (path : js_string) (mode : Z)
| EvCreateWriteStream (path : js_string) (mode : Z)
| EvStreamWrite (data : js_string)
| EvStreamEnd
| EvOpen (path : js_string) (mode : Z)
| EvFlock (op : flock_op)
| EvWrite (data : js_string)
| EvClose
| EvSettle (c : completion)
| EvConsoleError (text : js_string)
| EvSetTimeout (id : nat) (delay : Z)
| EvClearInterval (id : option nat).

Record timer := mkTimer { timer_id : nat; timer_delay : Z }.

Record World := mkWorld {
  umask : Z;                          (* process file-creation mask *)
  STORED_MESSAGES : list IMessage;    (* module-level array *)
  repeatTimer : option nat;           (* module-level variable *)
  timers : list timer;                (* timeouts pending in the event loop *)
  next_timer : nat;                   (* next handle [setTimeout] returns *)
  open_handles : nat;                 (* file handles this process holds *)
  log : list event                    (* most recent call last *)
}.

Definition emit (e : event) (w : World) : World :=
  mkWorld (umask w) (STORED_MESSAGES w) (repeatTimer w) (timers w)
          (next_timer w) (open_handles w) (log w ++ [e]).

(** [process.umask(mask)]: installs [mask], returns the previous one. *)
Definition process_umask (mask : Z) (w : World) : Z * World :=
  (umask w,
   emit (EvUmask mask)
     (mkWorld mask (STORED_MESSAGES w) (repeatTimer w) (timers w)
              (next_timer w) (open_handles w) (log w))).

Definition set_queue (q : list IMessage) (w : World) : World :=
  mkWorld (umask w) q (repeatTimer w) (timers w)
          (next_timer w) (open_handles w) (log w).

Definition set_repeatTimer (t : option nat) (w : World) : World :=
  mkWorld (umask w) (STORED_MESSAGES w) t (timers w)
          (next_timer w) (open_handles w) (log w).

Definition set_handles (n : nat) (w : World) : World :=
  mkWorld (umask w) (STORED_MESSAGES w) (repeatTimer w) (timers w)
          (next_timer w) n (log w).

(** [setTimeout(callback, delay)]: a fresh handle, now pending. *)
Definition setTimeout (delay : Z) (w : World) : nat * World :=
  let id := next_timer w in
  (id,
   emit (EvSetTimeout id delay)
     (mkWorld (umask w) (STORED_MESSAGES w) (repeatTimer w)
              (timers w ++ [mkTimer id delay])
              (S id) (open_handles w) (log w))).

(** [clearInterval(handle)]: cancels the pending timer with that handle,
    if any; [undefined] cancels nothing. *)
Definition clearInterval (h : option nat) (w : World) : World :=
  let keep :=
    match h with
    | None => timers w
    | Some id => filter (fun t => negb (timer_id t =? id)) (timers w)
    end in
  emit (EvClearInterval h)
    (mkWorld (umask w) (STORED_MESSAGES w) (repeatTimer w) keep
             (next_timer w) (open_handles w) (log w)).

(** [os.EOL] on the platforms the library targets. *)
Definition EOL : js_string := [10%N].

(* ================================================================== *)
(** ** The writers *)

(** What the file system answers during one write attempt. [None] is
    success, [Some text] a failure rendered as [text]. The record describes
    a run in which every request is answered; a request that is never
    answered leaves the source waiting and is outside these runs. *)
Record fs_io := mkIo {
  io_stream : option js_string;     (* the append stream: 'finish' or 'error' *)
  io_open : option js_string;       (* fs.promises.open *)
  io_lock : option js_string;       (* flock(fd, 'exnb') *)
  io_write : option js_string;      (* openFile.write *)
  io_unlock : option js_string      (* flock(fd, 'un') with a callback *)
}.

(** [writeToFile]: unsynchronised append through a write stream. *)
Definition writeToFile (io : fs_io) (filePath message : js_string)
    (w : World) : completion * World :=
  let w := emit (EvCreateWriteStream filePath FILE_PERMISSION) w in
  let w := emit (EvStreamWrite (message ++ EOL)) w in
  let w := emit EvStreamEnd w in
  match io_stream io with
  | None => (Resolved, emit (EvSettle Resolved) w)
  | Some err =>
      let e := LogException
                 (lit "Can no write to file " ++ filePath
                  ++ lit ". Error: " ++ dq ++ err ++ dq) None in
      (Rejected e, emit (EvSettle (Rejected e)) w)
  end.

(** The state of the promise executor of [writeToFileWithLock]: the world,
    whether [openFile] is still open, and the promise (settled once: later
    [resolve]/[reject] calls are ignored). *)
Record executor := mkExec {
  ex_world : World;
  ex_open : bool;
  ex_promise : completion
}.

(** [openFile.close()]: closing an already closed handle does nothing. *)
Definition close (x : executor) : executor :=
  let w := emit EvClose (ex_world x) in
  if ex_open x
  then mkExec (set_handles (pred (open_handles w)) w) false (ex_promise x)
  else mkExec w false (ex_promise x).

Definition settle (c : completion) (x : executor) : executor :=
  let w := emit (EvSettle c) (ex_world x) in
  match ex_promise x with
  | Pending => mkExec w (ex_open x) c
  | _ => mkExec w (ex_open x) (ex_promise x)
  end.

Definition reject (e : exn) : executor -> executor := settle (Rejected e).
Definition resolve : executor -> executor := settle Resolved.

Definition flock (op : flock_op) (x : executor) : executor :=
  mkExec (emit (EvFlock op) (ex_world x)) (ex_open x) (ex_promise x).

(** The callback of the final [flock(openFile.fd, 'un', ...)]. *)
Definition unlock_callback (io : fs_io) (filePath : js_string)
    (x : executor) : executor :=
  match io_unlock io with
  | Some _ =>
      let x := close x in
      reject (LogException
                (lit "Couldn't unlock file " ++ dq ++ filePath ++ dq) None) x
  | None =>
      let x := close x in
      resolve x
  end.

(** The callback of [flock(openFile.fd, 'exnb', ...)]. After a failed
    write the [catch] block does not return: control continues to the final
    unlock. *)
Definition lock_callback (io : fs_io) (filePath message : js_string)
    (x : executor) : executor :=
  match io_lock io with
  | Some _ =>
      let x := close x in
      reject (LogException
                (lit "Can no lock file " ++ dq ++ filePath ++ dq)
                (Some FILE_LOCKED)) x
  | None =>
      let x := mkExec (emit (EvWrite (message ++ EOL)) (ex_world x))
                      (ex_open x) (ex_promise x) in
      let x :=
        match io_write io with
        | None => x
        | Some err =>
            let x := close x in
            let x := flock LOCK_UN x in
            reject (LogException
                      (lit "Can not write to file " ++ dq ++ filePath ++ dq
                       ++ lit ". Error: " ++ err) None) x
        end in
      let x := flock LOCK_UN x in
      unlock_callback io filePath x
  end.

(** [writeToFileWithLock]: append under an exclusive non-blocking lock. *)
Definition writeToFileWithLock_exec (io : fs_io)
    (filePath message : js_string) (w : World) : executor :=
  let w := emit (EvOpen filePath FILE_PERMISSION) w in
  match io_open io with
  | Some err =>
      reject (LogException
                (lit "Can not open file. Error: " ++ dq ++ err ++ dq) None)
             (mkExec w false Pending)
  | None =>
      let x := mkExec (set_handles (S (open_handles w)) w) true Pending in
      let x := flock LOCK_EX_NB x in
      lock_callback io filePath message x
  end.

Definition writeToFileWithLock (io : fs_io) (filePath message : js_string)
    (w : World) : completion * World :=
  let x := writeToFileWithLock_exec io filePath message w in
  (ex_promise x, ex_world x).

(** [writeData]: the write under a umask of 0. A rejected (or never
    settled) [await] leaves the function before its last statement. *)
Definition writeData (io : fs_io) (m : IMessage) (w : World)
    : completion * World :=
  let '(oldMask, w) := process_umask 0 w in
  let '(c, w) :=
    if isLargeData m
    then writeToFileWithLock io (filePath m) (message m) w
    else writeToFile io (filePath m) (message m) w in
  match c with
  | Resolved =>
      let '(_, w) := process_umask oldMask w in
      (Resolved, w)
  | Rejected e => (Rejected e, w)
  | Pending => (Pending, w)
  end.

(* ================================================================== *)
(** ** The retry queue *)

(** [tryToWriteStoredData]: schedules the retry callback unless the queue
    is empty or a timer is already pending. *)
Definition tryToWriteStoredData (w : World) : World :=
  match STORED_MESSAGES w with
  | [] =>
      let w := clearInterval (repeatTimer w) w in
      set_repeatTimer None w
  | _ :: _ =>
      match repeatTimer w with
      | Some _ => w                       (* We already have one timer *)
      | None =>
          let '(id, w) := setTimeout RETRY_DELAY w in
          set_repeatTimer (Some id) w
      end
  end.

(** The timer callback up to its [await]: forget the timer, take the
    message at the head of the queue ([STORED_MESSAGES.shift()]). *)
Definition retry_begin (w : World) : option IMessage * World :=
  let w := clearInterval (repeatTimer w) w in
  let w := set_repeatTimer None w in
  match STORED_MESSAGES w with
  | [] => (None, w)
  | data :: rest => (Some data, set_queue rest w)
  end.

(** The timer callback from the completion of [writeData(data)] on;
    [clock] is [Number(new Date())]. A write that never completes never
    resumes the callback. *)
Definition retry_end (clock : N) (data : IMessage) (c : completion)
    (w : World) : World :=
  match c with
  | Pending => w
  | _ =>
      let w :=
        match c with
        | Rejected _ =>
            let w := emit (EvConsoleError
                             (lit "Repeat write warning: File " ++ dq
                              ++ filePath data ++ dq ++ lit " is locked. "
                              ++ digits clock)) w in
            set_queue (data :: STORED_MESSAGES w) w    (* unshift *)
        | _ => w
        end in
      match STORED_MESSAGES w with
      | [] => w
      | _ :: _ => tryToWriteStoredData w              (* Run again with timer *)
      end
  end.

(** The write of a popped message and the rest of the callback. *)
Definition retry_complete (io : fs_io) (clock : N) (data : IMessage)
    (w : World) : World :=
  let '(c, w) := writeData io data w in
  retry_end clock data c w.

(** The whole timer callback, when nothing else runs during its [await]. *)
Definition retryCallback (io : fs_io) (clock : N) (w : World) : World :=
  match retry_begin w with
  | (None, w) => w
  | (Some data, w) => retry_complete io clock data w
  end.

(** The event loop takes a due timer off its pending list before it runs
    the callback. *)
Definition expire (t : timer) (w : World) : World :=
  mkWorld (umask w) (STORED_MESSAGES w) (repeatTimer w)
          (filter (fun t' => negb (timer_id t' =? timer_id t)) (timers w))
          (next_timer w) (open_handles w) (log w).

(** One retry tick: the pending timer [t] fires and its callback runs. *)
Definition tick (io : fs_io) (clock : N) (t : timer) (w : World) : World :=
  retryCallback io clock (expire t w).

(* ================================================================== *)
(** ** Submission *)

(** What the file system answers to the directory checks of [writeLog]:
    [io_access] carries the error code and its rendering. As for [fs_io],
    every request is answered in the runs the record describes. *)
Record dir_io := mkDirIo {
  io_access : option (js_string * js_string);
  io_mkdir : option js_string;
  io_chmod : option js_string
}.

Definition js_eqb (a b : js_string) : bool :=
  if list_eq_dec N.eq_dec a b then true else false.

(** Lines 34-56 of [writeLog]: the directory exists and is writable, or is
    created; [Some e] is the exception thrown. *)
Definition ensureDirectory (dio : dir_io) (dirPath : js_string) (w : World)
    : option exn * World :=
  let w := emit (EvAccess dirPath) w in
  match io_access dio with
  | None => (None, w)
  | Some (code, fileError) =>
      if js_eqb code (lit "ENOENT") then
        let cannot mkdirError :=
          Error (lit "Can not create folder " ++ dq ++ dirPath ++ dq
                 ++ lit ". Error " ++ mkdirError) in
        let w := emit (EvMkdir dirPath 511) w in
        match io_mkdir dio with
        | Some mkdirError => (Some (cannot mkdirError), w)
        | None =>
            let w := emit (EvChmod dirPath 511) w in
            match io_chmod dio with
            | Some mkdirError => (Some (cannot mkdirError), w)
            | None => (None, w)
            end
        end
      else
        (Some (Error (lit "Not enough permissions to create path " ++ dq
                      ++ dirPath ++ dq ++ lit ". Error: " ++ fileError)), w)
  end.

(** Lines 58-71 of [writeLog]: the message record of a submission. *)
Definition logMessageData (e : Intl.engine) (now : Date)
    (dirPath message : js_string) : IMessage :=
  let fileName := getFileName e now in
  let '(fileName, isLargeData) :=
    if MAX_MESSAGE_SIZE <? JS.length message
    then (fileName ++ lit "_big", true)
    else (fileName, false) in
  let filePath := dirPath ++ lit "/" ++ fileName ++ lit ".log" in
  mkMessage filePath message isLargeData.

(** Lines 73-85 of [writeLog]: the first write attempt and the routing of
    its failure. *)
Definition submit (io : fs_io) (m : IMessage) (w : World)
    : completion * World :=
  let '(c, w) := writeData io m w in
  match c with
  | Resolved => (Resolved, w)
  | Pending => (Pending, w)
  | Rejected logError =>
      if is_file_locked logError then
        let w := emit (EvConsoleError
                         (lit "WRITING WARNING!: File " ++ dq ++ filePath m
                          ++ dq ++ lit " is locked.")) w in
        let w := set_queue (STORED_MESSAGES w ++ [m]) w in     (* push *)
        let w := tryToWriteStoredData w in
        (Resolved, w)
      else (Rejected (Error (exn_message logError)), w)
  end.

(** [writeLog] *)
Definition writeLog (e : Intl.engine) (now : Date) (dio : dir_io)
    (io : fs_io) (dirPath message : js_string) (w : World)
    : completion * World :=
  match ensureDirectory dio dirPath w with
  | (Some err, w) => (Rejected err, w)
  | (None, w) => submit io (logMessageData e now dirPath message) w
  end.

(* ================================================================== *)
(** ** The module under interleaving

    Every [await] lets other callbacks run. For the queue and the timer the
    points that matter are: a submission completes; the retry timer fires
    and pops a message; the write of a popped message completes. The
    messages popped and not yet completed are [in_flight]. The queue and the
    timer are only touched in the synchronous blocks these steps stand for.
    The umask is touched on both sides of the [await] of [writeData]: write
    attempts that overlap there are the subject of [ostep] below, not of
    this relation. *)

Record Sys := mkSys {
  world : World;
  in_flight : list IMessage
}.

Inductive step : Sys -> Sys -> Prop :=
| step_submit : forall s e now dio io dirPath message,
    step s (mkSys (snd (writeLog e now dio io dirPath message (world s)))
                  (in_flight s))
| step_fire : forall s t,
    In t (timers (world s)) ->
    step s (mkSys (snd (retry_begin (expire t (world s))))
                  (match fst (retry_begin (expire t (world s))) with
                   | Some data => data :: in_flight s
                   | None => in_flight s
                   end))
| step_complete : forall s io clock data before after,
    in_flight s = before ++ data :: after ->
    step s (mkSys (retry_complete io clock data (world s))
                  (before ++ after)).

(** The module as loaded: empty queue, no timer. *)
Definition initial (mask : Z) : Sys :=
  mkSys (mkWorld mask [] None [] 0 0 []) [].

Inductive reachable : Sys -> Prop :=
| reach_initial : forall mask, reachable (initial mask)
| reach_step : forall s s', reachable s -> step s s' -> reachable s'.

(** The retry-timer invariant: the timers pending in the event loop are
    exactly the one [repeatTimer] holds, with the fixed delay, and a timer is
    pending only while the queue is non-empty. *)
Definition timer_inv (w : World) : Prop :=
  timers w =
    match repeatTimer w with
    | Some id => [mkTimer id RETRY_DELAY]
    | None => []
    end
  /\ (repeatTimer w <> None -> STORED_MESSAGES w <> []).

(** The calls a function added to the log. *)
Definition added (before after : World) (tr : list event) : Prop :=
  log after = log before ++ tr.

Definition is_settle (e : event) : bool :=
  match e with EvSettle _ => true | _ => false end.

Definition is_close (e : event) : bool :=
  match e with EvClose => true | _ => false end.

(** In a sequence of calls, [close] comes before the first settling of
    the promise. *)
Fixpoint closed_before_settle (tr : list event) : bool :=
  match tr with
  | [] => false
  | e :: rest =>
      if is_close e then existsb is_settle rest
      else if is_settle e then false
      else closed_before_settle rest
  end.

(** [s] ends with [suffix]. *)
Definition ends_with (s suffix : js_string) : Prop :=
  exists prefix, s = prefix ++ suffix.

Definition is_stream_call (e : event) : bool :=
  match e with
  | EvCreateWriteStream _ _ | EvStreamWrite _ | EvStreamEnd => true
  | _ => false
  end.

Definition is_handle_call (e : event) : bool :=
  match e with
  | EvOpen _ _ | EvFlock _ | EvWrite _ | EvClose => true
  | _ => false
  end.

(** The event loop and the variable agree on the pending timer. *)
Definition timer_agrees (w : World) : Prop :=
  timers w =
    match repeatTimer w with
    | Some id => [mkTimer id RETRY_DELAY]
    | None => []
    end.

(* ================================================================== *)
(** ** Observations on runs *)

(** Does a write attempt succeed, given what the file system answers: the
    stream finishes (small message), or open, lock, write and unlock all
    succeed (large message). *)
Definition io_succeeds (io : fs_io) (large : bool) : bool :=
  if large then
    match io_open io, io_lock io, io_write io, io_unlock io with
    | None, None, None, None => true
    | _, _, _, _ => false
    end
  else
    match io_stream io with
    | None => true
    | Some _ => false
    end.

(** The data handed to [stream.write] or [openFile.write], in order. *)
Definition written (tr : list event) : list js_string :=
  flat_map (fun e => match e with
                     | EvStreamWrite d | EvWrite d => [d]
                     | _ => []
                     end) tr.

(** The paths handed to [createWriteStream] or [fs.promises.open], in
    order. *)
Definition opened (tr : list event) : list js_string :=
  flat_map (fun e => match e with
                     | EvCreateWriteStream p _ | EvOpen p _ => [p]
                     | _ => []
                     end) tr.

Definition is_dir_call (e : event) : bool :=
  match e with
  | EvAccess _ | EvMkdir _ _ | EvChmod _ _ => true
  | _ => false
  end.

Definition is_unlock (e : event) : bool :=
  match e with
  | EvFlock LOCK_UN => true
  | _ => false
  end.

(** Successive retry ticks with nothing else running in between: each
    round the pending timer fires and its callback runs to the end, with the
    answers and the clock of that round. *)
Fixpoint run_ticks (rounds : list (fs_io * N)) (w : World) : World :=
  match rounds with
  | [] => w
  | (io, clock) :: rest =>
      match timers w with
      | t :: _ => run_ticks rest (tick io clock t w)
      | [] => w
      end
  end.

(** The messages the module is responsible for: queued or popped and being
    written. *)
Definition pool (s : Sys) : list IMessage :=
  STORED_MESSAGES (world s) ++ in_flight s.

(** A non-empty queue has its timer. *)
Definition scheduled (w : World) : Prop :=
  STORED_MESSAGES w <> [] -> timers w <> [].

(* ================================================================== *)
(** ** Overlapping write attempts

    [writeData] awaits its write between [process.umask(0)] and
    [process.umask(oldMask)], so another call of [writeData] (from a
    submission or from the retry callback) can start or end in between. The
    three parts of [writeData] are taken apart here, and a state keeps the
    calls that are at their [await] with the [oldMask] each one holds. The
    file operations of a write are logged when the write completes; they do
    not touch the umask. *)

(** Line 128: [const oldMask = process.umask(0)]. *)
Definition writeData_enter (w : World) : Z * World := process_umask 0 w.

(** Lines 130-134: the awaited write. *)
Definition writeData_write (io : fs_io) (m : IMessage) (w : World)
    : completion * World :=
  if isLargeData m
  then writeToFileWithLock io (filePath m) (message m) w
  else writeToFile io (filePath m) (message m) w.

(** Line 136, reached only when the awaited write resolved. *)
Definition writeData_leave (oldMask : Z) (c : completion) (w : World)
    : completion * World :=
  match c with
  | Resolved =>
      let '(_, w) := process_umask oldMask w in
      (Resolved, w)
  | Rejected e => (Rejected e, w)
  | Pending => (Pending, w)
  end.

Record Overlap := mkOverlap {
  o_world : World;
  o_calls : list (Z * IMessage)   (* calls at their await: oldMask, message *)
}.

Inductive ostep : Overlap -> Overlap -> Prop :=
| ostep_enter : forall s m,
    ostep s (mkOverlap (snd (writeData_enter (o_world s)))
                       ((fst (writeData_enter (o_world s)), m) :: o_calls s))
| ostep_leave : forall s io oldMask m before after,
    o_calls s = before ++ (oldMask, m) :: after ->
    ostep s (mkOverlap
               (snd (writeData_leave oldMask
                       (fst (writeData_write io m (o_world s)))
                       (snd (writeData_write io m (o_world s)))))
               (before ++ after)).

(** Two calls that overlap: the first enters, the second enters, the first
    leaves, the second leaves. *)
Definition overlapped (ioA ioB : fs_io) (mA mB : IMessage) (w : World)
    : World :=
  let '(oldA, w) := writeData_enter w in
  let '(oldB, w) := writeData_enter w in
  let '(cA, w) := writeData_write ioA mA w in
  let '(_, w) := writeData_leave oldA cA w in
  let '(cB, w) := writeData_write ioB mB w in
  let '(_, w) := writeData_leave oldB cB w in
  w.

(* ================================================================== *)
(** ** Concrete inputs *)

Definition lsd_dir : js_string := lit "/tmp/lsd".

(** A message of 4097 code units, one of 5 and one of 4096 accented
    letters (two bytes each in UTF-8). *)
Definition big_text : js_string := repeat 97%N 4097.
Definition accented_text : js_string := repeat 233%N 4096.

Definition big_message : IMessage :=
  logMessageData modern feb12 lsd_dir big_text.
Definition hello_message : IMessage :=
  logMessageData modern feb12 lsd_dir (lit "hello").

Definition dir_ok : dir_io := mkDirIo None None None.
Definition all_ok : fs_io := mkIo None None None None None.
Definition lock_held : fs_io :=
  mkIo None None (Some (lit "EAGAIN")) None None.
Definition open_denied : fs_io :=
  mkIo None (Some (lit "EACCES")) None None None.
Definition stream_denied : fs_io :=
  mkIo (Some (lit "EACCES")) None None None None.

Definition lock_error : exn :=
  LogException (lit "Can no lock file " ++ dq ++ filePath big_message ++ dq)
               (Some FILE_LOCKED).
Definition open_error : exn :=
  LogException (lit "Can not open file. Error: " ++ dq ++ lit "EACCES" ++ dq)
               None.
Definition stream_error : exn :=
  LogException (lit "Can no write to file " ++ filePath hello_message
                ++ lit ". Error: " ++ dq ++ lit "EACCES" ++ dq) None.

(** The module as loaded under a umask of 0o022; after a large submission
    that found its file locked; and after the retry timer has fired. *)
Definition s0 : Sys := initial 18.
Definition s1 : Sys :=
  mkSys (snd (writeLog modern feb12 dir_ok lock_held lsd_dir big_text
                (world s0)))
        (in_flight s0).
Definition t0 : timer := mkTimer 0 100.
Definition s2 : Sys :=
  mkSys (snd (retry_begin (expire t0 (world s1))))
        (match fst (retry_begin (expire t0 (world s1))) with
         | Some data => data :: in_flight s1
         | None => in_flight s1
         end).

(** Further inputs: a second large message, a directory the process may
    not use, a write that fails once the lock is held; the state with two
    messages queued. *)
Definition big_text2 : js_string := repeat 98%N 4100.
Definition big_message2 : IMessage :=
  logMessageData modern feb12 lsd_dir big_text2.
Definition dir_denied : dir_io :=
  mkDirIo (Some (lit "EACCES", lit "Error: EACCES")) None None.
Definition disk_full : fs_io :=
  mkIo None None None (Some (lit "ENOSPC")) (Some (lit "EBADF")).
Definition s1b : Sys :=
  mkSys (snd (writeLog modern feb12 dir_ok lock_held lsd_dir big_text2
                (world s1)))
        (in_flight s1).
Definition two_rounds_ok : list (fs_io * N) :=
  [(all_ok, 1676219163100%N); (all_ok, 1676219163200%N)].
Definition one_round_locked : list (fs_io * N) :=
  [(lock_held, 1676219163100%N)].
Definition three_rounds_locked : list (fs_io * N) :=
  [(lock_held, 1676219163100%N); (open_denied, 1676219163200%N);
   (lock_held, 1676219163300%N)].

(* ================================================================== *)
(** ** Proof automation *)

(** Case analysis on what the file system answers. *)
Ltac io_cases io :=
  let s := fresh "s" in let o := fresh "o" in let l := fresh "l" in
  let wr := fresh "wr" in let u := fresh "u" in
  destruct io as [s o l wr u]; destruct s, o, l, wr, u.

Ltac run_writer :=
  cbv [writeToFileWithLock writeToFileWithLock_exec lock_callback
       unlock_callback writeToFile close reject resolve settle flock
       set_handles emit added
       io_stream io_open io_lock io_write io_unlock
       ex_world ex_open ex_promise
       umask STORED_MESSAGES repeatTimer timers next_timer open_handles log
       fst snd Nat.pred].

(** Normalises a log built by successive [emit]s to [log w ++ calls]. *)
Ltac flat_log := repeat rewrite <- app_assoc; cbn [app].

Ltac run_data :=
  cbv [writeData process_umask isLargeData filePath message];
  run_writer.

(* ================================================================== *)
(** * Properties *)

(** ** Decimal rendering and padding *)

Section Digits.

Local Open Scope N_scope.
















End Digits.

(* ================================================================== *)
(** ** The time bucketer *)

Section Bucket.

Local Open Scope N_scope.





End Bucket.




(* ================================================================== *)
(** ** The writers *)


Section Writers.

Variables (io : fs_io) (path text : js_string) (w : World).

Lemma writeToFile_frame :
  let w' := snd (writeToFile io path text w) in
  umask w' = umask w /\ STORED_MESSAGES w' = STORED_MESSAGES w /\
  repeatTimer w' = repeatTimer w /\ timers w' = timers w /\
  next_timer w' = next_timer w /\ open_handles w' = open_handles w.
Proof. io_cases io; run_writer; repeat split. Qed.

Lemma writeToFile_log :
  added w (snd (writeToFile io path text w))
    [EvCreateWriteStream path FILE_PERMISSION;
     EvStreamWrite (text ++ EOL);
     EvStreamEnd;
     EvSettle (fst (writeToFile io path text w))].
Proof.
  io_cases io; run_writer; flat_log; reflexivity.
Qed.

Lemma writeToFile_settles : fst (writeToFile io path text w) <> Pending.
Proof. io_cases io; run_writer; discriminate. Qed.

Lemma writeToFileWithLock_frame :
  let w' := snd (writeToFileWithLock io path text w) in
  umask w' = umask w /\ STORED_MESSAGES w' = STORED_MESSAGES w /\
  repeatTimer w' = repeatTimer w /\ timers w' = timers w /\
  next_timer w' = next_timer w /\ open_handles w' = open_handles w.
Proof. io_cases io; run_writer; repeat split. Qed.

Lemma writeToFileWithLock_settles :
  fst (writeToFileWithLock io path text w) <> Pending.
Proof. io_cases io; run_writer; discriminate. Qed.

Lemma writeToFileWithLock_extends :
  exists tr,
    added w (snd (writeToFileWithLock io path text w))
      (EvOpen path FILE_PERMISSION :: tr).
Proof.
  io_cases io; run_writer; flat_log; eexists; reflexivity.
Qed.

End Writers.

(** C5: the lock-guarded writer always settles; it rejects with the code
    FILE_LOCKED exactly when the file was opened and the exclusive
    non-blocking lock was refused, and then the handle has been closed;
    every other rejection (open, write or unlock failure) carries no code;
    it resolves exactly when every operation succeeded. *)
Theorem writeToFileWithLock_file_locked : forall io path text w,
  let c := fst (writeToFileWithLock io path text w) in
  let x := writeToFileWithLock_exec io path text w in
  c <> Pending /\
  ((exists e, c = Rejected e /\ is_file_locked e = true) <->
   (io_open io = None /\ io_lock io <> None)) /\
  ((exists e, c = Rejected e /\ is_file_locked e = true) ->
   ex_open x = false /\ open_handles (ex_world x) = open_handles w) /\
  (forall e, c = Rejected e ->
     (io_open io <> None \/ io_lock io = None) ->
     exn_code e = None /\ is_file_locked e = false /\
     (io_open io <> None \/ io_write io <> None \/ io_unlock io <> None)) /\
  (c = Resolved <->
   (io_open io = None /\ io_lock io = None /\
    io_write io = None /\ io_unlock io = None)).
Proof.
  intros io path text w.
  io_cases io; run_writer;
    (split; [discriminate|]);
    (split; [split; [intros (e & He & Hc); inversion He; subst;
                     try discriminate Hc; split; congruence
                    |intros (Ho & Hl); try congruence;
                     eexists; split; reflexivity]|]);
    (split; [intros (e & He & Hc); inversion He; subst;
             try discriminate Hc; split; reflexivity|]);
    (split; [intros e He [Hn|Hn]; try congruence; inversion He; subst;
             (split; [reflexivity|split; [reflexivity|]]);
             first [left; discriminate
                   |right; left; discriminate
                   |right; right; discriminate]|]);
    (split; [intros H; try discriminate H; repeat split
            |intros (H1 & H2 & H3 & H4); congruence]).
Qed.

(** C9: whatever the file system answers, the lock-guarded writer settles
    its promise, holds no more handles afterwards than before, and - when
    the file was opened - calls [close] before it first settles the promise;
    when the open itself failed there was no handle and nothing is closed. *)
Theorem writeToFileWithLock_closes_handle : forall io path text w,
  let x := writeToFileWithLock_exec io path text w in
  ex_promise x <> Pending /\
  ex_open x = false /\
  open_handles (ex_world x) = open_handles w /\
  exists tr,
    added w (ex_world x) tr /\
    (io_open io = None -> closed_before_settle tr = true) /\
    (io_open io <> None -> existsb is_close tr = false).
Proof.
  intros io path text w.
  io_cases io; run_writer;
    (split; [discriminate|]);
    (split; [reflexivity|]);
    (split; [reflexivity|]);
    flat_log; eexists;
    (split; [reflexivity|]);
    (split; [intros H; try discriminate H; reflexivity
            |intros H; try congruence; reflexivity]).
Qed.

(* ================================================================== *)
(** ** The scoped umask override *)


Lemma writeData_settles : forall io m w,
  fst (writeData io m w) <> Pending.
Proof.
  intros io [p t large] w. destruct large; io_cases io; run_data;
    discriminate.
Qed.

Lemma writeData_frame : forall io m w,
  let w' := snd (writeData io m w) in
  STORED_MESSAGES w' = STORED_MESSAGES w /\
  repeatTimer w' = repeatTimer w /\ timers w' = timers w /\
  next_timer w' = next_timer w /\ open_handles w' = open_handles w.
Proof.
  intros io [p t large] w. destruct large; io_cases io; run_data;
    repeat split.
Qed.

Lemma writeData_sets_umask_0 : forall io m w,
  exists tr, added w (snd (writeData io m w)) (EvUmask 0 :: tr).
Proof.
  intros io [p t large] w. destruct large; io_cases io; run_data;
    flat_log; eexists; reflexivity.
Qed.

Lemma writeData_resolved_restores_umask : forall io m w,
  fst (writeData io m w) = Resolved ->
  umask (snd (writeData io m w)) = umask w.
Proof.
  intros io [p t large] w. destruct large; io_cases io; run_data;
    intros H; try discriminate H; reflexivity.
Qed.

(** C2 at the failing path: the mask is set to 0 before the write, and a
    write attempt that rejects leaves the process umask at 0 - the
    statement restoring it is never reached. *)
Theorem writeData_rejected_leaves_umask_0 : forall io m w e,
  fst (writeData io m w) = Rejected e ->
  umask (snd (writeData io m w)) = 0%Z.
Proof.
  intros io [p t large] w e. destruct large; io_cases io; run_data;
    intros H; try discriminate H; reflexivity.
Qed.

(* ================================================================== *)
(** ** Size routing *)


Lemma logMessageData_large : forall e now dirPath text,
  isLargeData (logMessageData e now dirPath text)
  = (MAX_MESSAGE_SIZE <? JS.length text).
Proof.
  intros. unfold logMessageData.
  destruct (MAX_MESSAGE_SIZE <? JS.length text); reflexivity.
Qed.

Lemma logMessageData_message : forall e now dirPath text,
  message (logMessageData e now dirPath text) = text.
Proof.
  intros. unfold logMessageData.
  destruct (MAX_MESSAGE_SIZE <? JS.length text); reflexivity.
Qed.

Lemma writeData_small_calls : forall io m w,
  isLargeData m = false ->
  exists tr,
    added w (snd (writeData io m w))
      (EvUmask 0 :: EvCreateWriteStream (filePath m) FILE_PERMISSION
       :: EvStreamWrite (message m ++ EOL) :: EvStreamEnd :: tr) /\
    existsb is_handle_call tr = false /\
    existsb is_stream_call tr = false.
Proof.
  intros io [p t large] w H. cbn in H. subst large.
  io_cases io; run_data; flat_log; eexists;
    (split; [reflexivity|split; reflexivity]).
Qed.

Lemma writeData_large_calls : forall io m w,
  isLargeData m = true ->
  exists tr,
    added w (snd (writeData io m w))
      (EvUmask 0 :: EvOpen (filePath m) FILE_PERMISSION :: tr) /\
    existsb is_stream_call tr = false /\
    (io_open io = None -> exists tr', tr = EvFlock LOCK_EX_NB :: tr') /\
    (In (EvWrite (message m ++ EOL)) tr <->
     io_open io = None /\ io_lock io = None).
Proof.
  intros io [p t large] w H. cbn in H. subst large.
  io_cases io; run_data; flat_log; eexists;
    (split; [reflexivity|]);
    (split; [reflexivity|]);
    (split; [intros H; try discriminate H; eexists; reflexivity|]);
    (split; [intros H; cbn in H;
             repeat match goal with
                    | H : _ \/ _ |- _ => destruct H as [H|H]
                    end;
             try discriminate H; try contradiction; split; reflexivity
            |intros [H1 H2]; try discriminate H1; try discriminate H2;
             cbn; tauto]).
Qed.

Lemma not_big_suffix : forall a b : js_string,
  a ++ lit "00" ++ lit ".log" <> b ++ lit "_big.log".
Proof.
  intros a b H. apply (f_equal (@rev code_unit)) in H.
  repeat rewrite rev_app_distr in H. cbn in H. discriminate H.
Qed.

Lemma getFileName_ends_00 : forall e now,
  exists stem, getFileName e now = stem ++ lit "00".
Proof.
  intros. unfold getFileName. eexists.
  repeat rewrite app_assoc. reflexivity.
Qed.

(** Where a submission goes, by its size. *)
Lemma logMessageData_small_path : forall e now dirPath text,
  JS.length text <= 4096 ->
  let m := logMessageData e now dirPath text in
  isLargeData m = false /\
  filePath m = dirPath ++ lit "/" ++ getFileName e now ++ lit ".log" /\
  ~ ends_with (filePath m) (lit "_big.log").
Proof.
  intros e now dirPath text Hlen m.
  assert (Hp : filePath m
               = dirPath ++ lit "/" ++ getFileName e now ++ lit ".log").
  { subst m. unfold logMessageData. change MAX_MESSAGE_SIZE with 4096.
    apply Nat.ltb_ge in Hlen. rewrite Hlen. reflexivity. }
  split.
  { subst m. rewrite logMessageData_large. apply Nat.ltb_ge. exact Hlen. }
  split; [exact Hp|].
  intros [b Hb]. rewrite Hp in Hb.
  destruct (getFileName_ends_00 e now) as [stem Hst].
  rewrite Hst in Hb.
  apply (not_big_suffix (dirPath ++ lit "/" ++ stem) b).
  rewrite <- Hb. repeat rewrite <- app_assoc. reflexivity.
Qed.

Lemma logMessageData_large_path : forall e now dirPath text,
  4096 < JS.length text ->
  let m := logMessageData e now dirPath text in
  isLargeData m = true /\
  filePath m
  = dirPath ++ lit "/" ++ (getFileName e now ++ lit "_big") ++ lit ".log" /\
  ends_with (filePath m) (lit "_big.log").
Proof.
  intros e now dirPath text Hlen m.
  assert (Hp : filePath m
               = dirPath ++ lit "/" ++ (getFileName e now ++ lit "_big")
                 ++ lit ".log").
  { subst m. unfold logMessageData. change MAX_MESSAGE_SIZE with 4096.
    apply Nat.ltb_lt in Hlen. rewrite Hlen. reflexivity. }
  split.
  { subst m. rewrite logMessageData_large. apply Nat.ltb_lt. exact Hlen. }
  split; [exact Hp|].
  rewrite Hp. exists (dirPath ++ lit "/" ++ getFileName e now).
  repeat rewrite <- app_assoc. reflexivity.
Qed.

(** C4: a submission is large exactly when its message is longer than
    4096; a message of at most 4096 goes to [<dir>/<bucket>.log] (no [_big]
    suffix) through the append stream, with no handle opened and no lock
    requested; a longer one goes to [<dir>/<bucket>_big.log] through the
    handle path, where the lock is requested right after the open and the
    message is written exactly when the lock was granted. *)
Theorem size_routing : forall e now dirPath text io w,
  let m := logMessageData e now dirPath text in
  (isLargeData m = true <-> 4096 < JS.length text) /\
  (JS.length text <= 4096 ->
   filePath m = dirPath ++ lit "/" ++ getFileName e now ++ lit ".log" /\
   ~ ends_with (filePath m) (lit "_big.log") /\
   exists tr,
     added w (snd (writeData io m w))
       (EvUmask 0 :: EvCreateWriteStream (filePath m) FILE_PERMISSION
        :: EvStreamWrite (text ++ EOL) :: EvStreamEnd :: tr) /\
     existsb is_handle_call tr = false /\
     existsb is_stream_call tr = false) /\
  (4096 < JS.length text ->
   filePath m
   = dirPath ++ lit "/" ++ (getFileName e now ++ lit "_big") ++ lit ".log" /\
   ends_with (filePath m) (lit "_big.log") /\
   exists tr,
     added w (snd (writeData io m w))
       (EvUmask 0 :: EvOpen (filePath m) FILE_PERMISSION :: tr) /\
     existsb is_stream_call tr = false /\
     (io_open io = None -> exists tr', tr = EvFlock LOCK_EX_NB :: tr') /\
     (In (EvWrite (text ++ EOL)) tr <->
      io_open io = None /\ io_lock io = None)).
Proof.
  intros e now dirPath text io w m.
  pose proof (logMessageData_message e now dirPath text) as HM.
  fold m in HM.
  split.
  { subst m. rewrite logMessageData_large.
    change MAX_MESSAGE_SIZE with 4096. apply Nat.ltb_lt. }
  split; intros Hlen.
  - destruct (logMessageData_small_path e now dirPath text Hlen)
      as (Hs & Hp & Hnb).
    fold m in Hs, Hp, Hnb.
    split; [exact Hp|]. split; [exact Hnb|].
    rewrite <- HM. apply writeData_small_calls. exact Hs.
  - destruct (logMessageData_large_path e now dirPath text Hlen)
      as (Hs & Hp & Hb).
    fold m in Hs, Hp, Hb.
    split; [exact Hp|]. split; [exact Hb|].
    rewrite <- HM. apply writeData_large_calls. exact Hs.
Qed.

(** C10: the threshold is compared with the number of UTF-16 code units; a
    message of at most 4096 code units whose UTF-8 encoding is longer than
    4096 bytes is still classified as small and written through the append
    stream, with no handle opened and no lock requested. *)
Theorem threshold_counts_code_units : forall e now dirPath text io w,
  JS.length text <= MAX_MESSAGE_SIZE ->
  MAX_MESSAGE_SIZE < utf8_length text ->
  let m := logMessageData e now dirPath text in
  isLargeData m = false /\
  ~ ends_with (filePath m) (lit "_big.log") /\
  exists tr,
    added w (snd (writeData io m w))
      (EvUmask 0 :: EvCreateWriteStream (filePath m) FILE_PERMISSION
       :: EvStreamWrite (text ++ EOL) :: EvStreamEnd :: tr) /\
    existsb is_handle_call tr = false.
Proof.
  intros e now dirPath text io w Hlen _ m.
  unfold MAX_MESSAGE_SIZE in Hlen.
  destruct (logMessageData_small_path e now dirPath text Hlen)
    as (Hs & _ & Hnb).
  fold m in Hs, Hnb.
  split; [exact Hs|]. split; [exact Hnb|].
  destruct (writeData_small_calls io m w Hs) as (tr & Htr & Hh & _).
  exists tr. split; [|exact Hh].
  subst m. rewrite logMessageData_message in Htr. exact Htr.
Qed.

(* ================================================================== *)
(** ** The retry queue and its timer *)

Section RetryTimer.


Lemma timer_inv_agrees : forall w, timer_inv w -> timer_agrees w.
Proof. intros w [H _]. exact H. Qed.

Lemma timer_agrees_frame : forall w w',
  repeatTimer w' = repeatTimer w -> timers w' = timers w ->
  timer_agrees w -> timer_agrees w'.
Proof.
  unfold timer_agrees. intros w w' Hr Ht H. rewrite Hr, Ht. exact H.
Qed.

Lemma timer_inv_frame : forall w w',
  STORED_MESSAGES w' = STORED_MESSAGES w ->
  repeatTimer w' = repeatTimer w -> timers w' = timers w ->
  timer_inv w -> timer_inv w'.
Proof.
  unfold timer_inv. intros w w' Hq Hr Ht [H1 H2].
  rewrite Hq, Hr, Ht. split; assumption.
Qed.

Lemma filter_own_timer : forall id d,
  filter (fun t => negb (timer_id t =? id)) [mkTimer id d] = [].
Proof. intros. cbn. rewrite Nat.eqb_refl. reflexivity. Qed.

(** What [tryToWriteStoredData] does, case by case. *)
Lemma tryToWriteStoredData_empty : forall w,
  STORED_MESSAGES w = [] -> timer_agrees w ->
  let w' := tryToWriteStoredData w in
  repeatTimer w' = None /\ timers w' = [] /\
  STORED_MESSAGES w' = [].
Proof.
  intros w Hq Ha. unfold tryToWriteStoredData. rewrite Hq.
  unfold timer_agrees in Ha.
  destruct w as [um q rt ts nt oh lg]. cbn in *. subst q.
  destruct rt as [id|]; subst ts; cbn.
  - rewrite Nat.eqb_refl. repeat split.
  - repeat split.
Qed.

Lemma tryToWriteStoredData_pending : forall w,
  STORED_MESSAGES w <> [] -> repeatTimer w <> None ->
  tryToWriteStoredData w = w.
Proof.
  intros w Hq Hr. unfold tryToWriteStoredData.
  destruct (STORED_MESSAGES w); [congruence|].
  destruct (repeatTimer w); [reflexivity|congruence].
Qed.

Lemma tryToWriteStoredData_schedules : forall w,
  STORED_MESSAGES w <> [] -> repeatTimer w = None ->
  let w' := tryToWriteStoredData w in
  repeatTimer w' = Some (next_timer w) /\
  timers w' = timers w ++ [mkTimer (next_timer w) RETRY_DELAY] /\
  STORED_MESSAGES w' = STORED_MESSAGES w.
Proof.
  intros w Hq Hr. unfold tryToWriteStoredData.
  destruct (STORED_MESSAGES w) eqn:E; [congruence|].
  rewrite Hr. cbn. rewrite E. repeat split.
Qed.

Lemma tryToWriteStoredData_queue : forall w,
  STORED_MESSAGES (tryToWriteStoredData w) = STORED_MESSAGES w.
Proof.
  intros w. unfold tryToWriteStoredData.
  destruct (STORED_MESSAGES w) eqn:E; [cbn; exact E|].
  destruct (repeatTimer w); [exact E|]. cbn. exact E.
Qed.

Lemma tryToWriteStoredData_inv : forall w,
  timer_agrees w -> timer_inv (tryToWriteStoredData w).
Proof.
  intros w Ha.
  destruct (STORED_MESSAGES w) as [|m q] eqn:Eq.
  - destruct (tryToWriteStoredData_empty w Eq Ha) as (Hr & Ht & _).
    split; [rewrite Hr, Ht; reflexivity|rewrite Hr; congruence].
  - assert (Hne : STORED_MESSAGES w <> []) by (rewrite Eq; discriminate).
    destruct (repeatTimer w) as [id|] eqn:Er.
    + rewrite tryToWriteStoredData_pending by congruence.
      split; [exact Ha|intros _; exact Hne].
    + destruct (tryToWriteStoredData_schedules w Hne Er) as (Hr & Ht & Hq).
      unfold timer_agrees in Ha. rewrite Er in Ha.
      split; [rewrite Hr, Ht, Ha; reflexivity|].
      intros _. rewrite Hq. exact Hne.
Qed.

(** A timer pending means a non-empty queue, so that a further request
    changes nothing. *)
Lemma pending_is_noop : forall w,
  timer_inv w -> timers w <> [] -> tryToWriteStoredData w = w.
Proof.
  intros w [Ha Hq] Ht.
  assert (Hr : repeatTimer w <> None).
  { intros Hn. rewrite Hn in Ha. contradiction. }
  apply tryToWriteStoredData_pending; auto.
Qed.

Lemma ensureDirectory_frame : forall dio dirPath w,
  let w' := snd (ensureDirectory dio dirPath w) in
  umask w' = umask w /\ STORED_MESSAGES w' = STORED_MESSAGES w /\
  repeatTimer w' = repeatTimer w /\ timers w' = timers w.
Proof.
  intros dio dirPath w. unfold ensureDirectory.
  destruct (io_access dio) as [[code fileError]|]; [|cbn; repeat split].
  destruct (js_eqb code (lit "ENOENT")); [|cbn; repeat split].
  destruct (io_mkdir dio); [cbn; repeat split|].
  destruct (io_chmod dio); cbn; repeat split.
Qed.

(** What [submit] does with the outcome of the first attempt. *)
Lemma submit_outcome : forall io m w,
  let r := submit io m w in
  let c := fst (writeData io m w) in
  let w1 := snd (writeData io m w) in
  match c with
  | Resolved => r = (Resolved, w1)
  | Pending => r = (Pending, w1)
  | Rejected err =>
      if is_file_locked err then
        fst r = Resolved /\
        STORED_MESSAGES (snd r) = STORED_MESSAGES w ++ [m] /\
        snd r =
          tryToWriteStoredData
            (set_queue (STORED_MESSAGES w ++ [m])
               (emit (EvConsoleError
                        (lit "WRITING WARNING!: File " ++ dq ++ filePath m
                         ++ dq ++ lit " is locked.")) w1))
      else r = (Rejected (Error (exn_message err)), w1)
  end.
Proof.
  intros io m w. cbv zeta. unfold submit.
  pose proof (writeData_frame io m w) as (Hq & _).
  destruct (writeData io m w) as [c w1]. cbn [fst snd] in *.
  destruct c as [|err|]; try reflexivity.
  destruct (is_file_locked err); [|reflexivity].
  cbn [fst snd]. split; [reflexivity|].
  rewrite tryToWriteStoredData_queue. cbn. rewrite Hq.
  split; reflexivity.
Qed.

Lemma submit_inv : forall io m w,
  timer_inv w -> timer_inv (snd (submit io m w)).
Proof.
  intros io m w Hinv.
  pose proof (submit_outcome io m w) as H. cbv zeta in H.
  pose proof (writeData_frame io m w) as (Hq & Hr & Ht & _).
  assert (Hinv1 : timer_inv (snd (writeData io m w)))
    by (apply (timer_inv_frame w); assumption).
  destruct (fst (writeData io m w)) as [|err|].
  - rewrite H. exact Hinv1.
  - destruct (is_file_locked err).
    + destruct H as (_ & _ & ->). apply tryToWriteStoredData_inv.
      apply (timer_agrees_frame (snd (writeData io m w)));
        [reflexivity|reflexivity|apply timer_inv_agrees; exact Hinv1].
    + rewrite H. exact Hinv1.
  - rewrite H. exact Hinv1.
Qed.

Lemma writeLog_inv : forall e now dio io dirPath text w,
  timer_inv w -> timer_inv (snd (writeLog e now dio io dirPath text w)).
Proof.
  intros e now dio io dirPath text w Hinv. unfold writeLog.
  pose proof (ensureDirectory_frame dio dirPath w) as (_ & Hq & Hr & Ht).
  destruct (ensureDirectory dio dirPath w) as [[err|] w1];
    cbn [fst snd] in *.
  - apply (timer_inv_frame w); assumption.
  - apply submit_inv. apply (timer_inv_frame w); assumption.
Qed.

(** The timer that fires is the one [repeatTimer] holds; the callback
    starts by popping the head of the queue, with no timer left. *)
Lemma fire_pops : forall w t,
  timer_inv w -> In t (timers w) ->
  timer_delay t = RETRY_DELAY /\
  exists data rest,
    STORED_MESSAGES w = data :: rest /\
    fst (retry_begin (expire t w)) = Some data /\
    STORED_MESSAGES (snd (retry_begin (expire t w))) = rest /\
    timers (snd (retry_begin (expire t w))) = [] /\
    repeatTimer (snd (retry_begin (expire t w))) = None.
Proof.
  intros w t [Ha Hq] Hin.
  destruct w as [um q rt ts nt oh lg]. cbn in *.
  destruct rt as [id|]; subst ts; [|contradiction].
  destruct Hin as [<-|[]]. split; [reflexivity|].
  destruct q as [|data rest]; [exfalso; apply Hq; congruence|].
  exists data, rest. unfold retry_begin, expire. cbn.
  rewrite Nat.eqb_refl. cbn. repeat split.
Qed.

Lemma fire_inv : forall w t,
  timer_inv w -> In t (timers w) ->
  timer_inv (snd (retry_begin (expire t w))).
Proof.
  intros w t Hinv Hin.
  destruct (fire_pops w t Hinv Hin) as (_ & data & rest & _ & _ & _ & Ht & Hr).
  split; [rewrite Ht, Hr; reflexivity|rewrite Hr; congruence].
Qed.

(** The end of the callback, by the outcome of the write. *)
Lemma retry_end_resolved : forall clock data w,
  timer_inv w ->
  let w' := retry_end clock data Resolved w in
  STORED_MESSAGES w' = STORED_MESSAGES w /\ timer_inv w'.
Proof.
  intros clock data w Hinv. unfold retry_end.
  destruct (STORED_MESSAGES w) eqn:E.
  - split; [exact E|exact Hinv].
  - rewrite tryToWriteStoredData_queue.
    split; [exact E|].
    apply tryToWriteStoredData_inv, timer_inv_agrees, Hinv.
Qed.

Lemma retry_end_rejected : forall clock data err w,
  timer_inv w ->
  let w' := retry_end clock data (Rejected err) w in
  STORED_MESSAGES w' = data :: STORED_MESSAGES w /\ timer_inv w' /\
  timers w' <> [].
Proof.
  intros clock data err w Hinv. unfold retry_end.
  cbn [STORED_MESSAGES set_queue emit].
  rewrite tryToWriteStoredData_queue. split; [reflexivity|].
  match goal with
  | |- timer_inv (tryToWriteStoredData ?x) /\ _ =>
      assert (Hx : timer_inv (tryToWriteStoredData x))
  end.
  { apply tryToWriteStoredData_inv.
    apply (timer_agrees_frame w);
      [reflexivity|reflexivity|apply timer_inv_agrees; exact Hinv]. }
  split; [exact Hx|].
  destruct Hinv as [Ha _]. unfold timer_agrees, tryToWriteStoredData.
  cbn. destruct (repeatTimer w) as [id|] eqn:Er.
  - cbn. rewrite Ha. discriminate.
  - cbn. rewrite Ha. discriminate.
Qed.

Lemma retry_complete_inv : forall io clock data w,
  timer_inv w -> timer_inv (retry_complete io clock data w).
Proof.
  intros io clock data w Hinv. unfold retry_complete.
  pose proof (writeData_frame io data w) as (Hq & Hr & Ht & _).
  destruct (writeData io data w) as [c w1]. cbn [fst snd] in *.
  assert (Hinv1 : timer_inv w1) by (apply (timer_inv_frame w); assumption).
  destruct c as [|err|].
  - apply retry_end_resolved. exact Hinv1.
  - apply retry_end_rejected. exact Hinv1.
  - exact Hinv1.
Qed.

Lemma step_inv : forall s s',
  timer_inv (world s) -> step s s' -> timer_inv (world s').
Proof.
  intros s s' Hinv Hstep. destruct Hstep; cbn [world].
  - apply writeLog_inv. exact Hinv.
  - apply fire_inv; assumption.
  - apply retry_complete_inv. exact Hinv.
Qed.

Lemma reachable_inv : forall s, reachable s -> timer_inv (world s).
Proof.
  induction 1 as [mask|s s' _ IH Hstep].
  - split; [reflexivity|intros H; exfalso; apply H; reflexivity].
  - apply (step_inv s); assumption.
Qed.

(** One whole tick, when nothing else runs during its [await]: the
    queue loses its head, or keeps it when the write failed. *)
Lemma tick_queue : forall io clock w t,
  timer_inv w -> In t (timers w) ->
  exists data rest,
    STORED_MESSAGES w = data :: rest /\
    tick io clock t w
    = retry_complete io clock data (snd (retry_begin (expire t w))) /\
    STORED_MESSAGES (tick io clock t w) =
      match fst (writeData io data (snd (retry_begin (expire t w)))) with
      | Rejected _ => data :: rest
      | _ => rest
      end.
Proof.
  intros io clock w t Hinv Hin.
  destruct (fire_pops w t Hinv Hin)
    as (_ & data & rest & Hq & Hpop & Hrest & _).
  pose proof (fire_inv w t Hinv Hin) as Hinv1.
  exists data, rest. split; [exact Hq|].
  assert (Ht : tick io clock t w
               = retry_complete io clock data
                   (snd (retry_begin (expire t w)))).
  { unfold tick, retryCallback.
    destruct (retry_begin (expire t w)) as [d w1]. cbn [fst snd] in *.
    rewrite Hpop. reflexivity. }
  split; [exact Ht|]. rewrite Ht. unfold retry_complete.
  set (w1 := snd (retry_begin (expire t w))) in *.
  pose proof (writeData_frame io data w1) as (Hf & Hr & Hts & _).
  assert (Hinv2 : timer_inv (snd (writeData io data w1)))
    by (apply (timer_inv_frame w1); assumption).
  destruct (writeData io data w1) as [c w2]. cbn [fst snd] in *.
  destruct c as [|err|].
  - destruct (retry_end_resolved clock data w2 Hinv2) as [H _].
    rewrite H, Hf. exact Hrest.
  - destruct (retry_end_rejected clock data err w2 Hinv2) as [H _].
    rewrite H, Hf, Hrest. reflexivity.
  - cbn. rewrite Hf. exact Hrest.
Qed.

Lemma timer_inv_at_most_one : forall w,
  timer_inv w -> List.length (timers w) <= 1.
Proof.
  intros w [Ha _]. rewrite Ha. destruct (repeatTimer w); cbn; lia.
Qed.

End RetryTimer.

(** C7: in every state the module can reach - after every submission,
    every firing of the timer and every completed retry - at most one retry
    timer is pending, and it is the one [repeatTimer] holds; while it is
    pending the queue is non-empty and a further request to trigger the cycle
    changes nothing; with a non-empty queue and no timer pending the request
    creates exactly one timer; with an empty queue no timer is pending and
    the request leaves the handle cleared. *)
Theorem one_retry_timer : forall s,
  reachable s ->
  let w := world s in
  List.length (timers w) <= 1 /\
  timer_agrees w /\
  (timers w <> [] ->
   STORED_MESSAGES w <> [] /\ tryToWriteStoredData w = w) /\
  (STORED_MESSAGES w <> [] -> timers w = [] ->
   timers (tryToWriteStoredData w) = [mkTimer (next_timer w) RETRY_DELAY] /\
   repeatTimer (tryToWriteStoredData w) = Some (next_timer w)) /\
  (STORED_MESSAGES w = [] ->
   timers w = [] /\ repeatTimer w = None /\
   timers (tryToWriteStoredData w) = [] /\
   repeatTimer (tryToWriteStoredData w) = None) /\
  (forall s', step s s' -> List.length (timers (world s')) <= 1).
Proof.
  intros s Hreach w.
  pose proof (reachable_inv s Hreach) as Hinv. fold w in Hinv.
  pose proof Hinv as [Ha Hq].
  split; [apply timer_inv_at_most_one; exact Hinv|].
  split; [exact Ha|].
  split.
  { intros Ht. split; [|apply pending_is_noop; assumption].
    apply Hq. intros Hn. rewrite Hn in Ha. contradiction. }
  split.
  { intros Hne Ht.
    assert (Hr : repeatTimer w = None).
    { destruct (repeatTimer w); [rewrite Ha in Ht; discriminate|reflexivity]. }
    destruct (tryToWriteStoredData_schedules w Hne Hr) as (H1 & H2 & _).
    rewrite H2, Ht. split; [reflexivity|exact H1]. }
  split.
  { intros He.
    assert (Hr : repeatTimer w = None).
    { destruct (repeatTimer w) eqn:E; [|reflexivity].
      exfalso. apply Hq; [discriminate|exact He]. }
    destruct (tryToWriteStoredData_empty w He Ha) as (H1 & H2 & _).
    rewrite Hr in Ha. repeat split; assumption. }
  intros s' Hstep. apply timer_inv_at_most_one.
  apply (step_inv s); assumption.
Qed.

(** C1 at the failing path: whatever the error of the failed write of a
    popped message - FILE_LOCKED or not - the retry callback puts the
    message back at the head of the queue and leaves a timer pending: a
    message whose write fails for another reason is not dropped but retried
    on every tick. *)
Theorem retry_requeues_on_every_failure : forall s io clock data err,
  reachable s ->
  fst (writeData io data (world s)) = Rejected err ->
  let w' := retry_complete io clock data (world s) in
  STORED_MESSAGES w' = data :: STORED_MESSAGES (world s) /\
  exists id, timers w' = [mkTimer id RETRY_DELAY].
Proof.
  intros s io clock data err Hreach Hc w'.
  pose proof (reachable_inv s Hreach) as Hinv.
  pose proof (writeData_frame io data (world s)) as (Hq & Hr & Ht & _).
  assert (Hinv1 : timer_inv (snd (writeData io data (world s))))
    by (apply (timer_inv_frame (world s)); assumption).
  assert (Hw' : w' = retry_end clock data (Rejected err)
                       (snd (writeData io data (world s)))).
  { subst w'. unfold retry_complete. rewrite <- Hc.
    destruct (writeData io data (world s)); reflexivity. }
  destruct (retry_end_rejected clock data err _ Hinv1)
    as (H1 & [Ha _] & H2).
  rewrite Hw'. split; [rewrite H1, Hq; reflexivity|].
  unfold timer_agrees in Ha.
  destruct (repeatTimer
              (retry_end clock data (Rejected err)
                 (snd (writeData io data (world s))))) as [id|].
  - exists id. exact Ha.
  - contradiction.
Qed.

(** C6: once the directory checks have passed, a first write attempt that
    rejects with FILE_LOCKED makes [writeLog] resolve, with the message
    appended to the retry queue; one that rejects with any other error makes
    [writeLog] reject with an [Error] of the same text, the queue and the
    timer being left as they were. *)
Theorem writeLog_routing : forall e now dio io dirPath text w w1 err,
  ensureDirectory dio dirPath w = (None, w1) ->
  fst (writeData io (logMessageData e now dirPath text) w1) = Rejected err ->
  let m := logMessageData e now dirPath text in
  let r := writeLog e now dio io dirPath text w in
  (is_file_locked err = true ->
   fst r = Resolved /\
   STORED_MESSAGES (snd r) = STORED_MESSAGES w ++ [m]) /\
  (is_file_locked err = false ->
   fst r = Rejected (Error (exn_message err)) /\
   STORED_MESSAGES (snd r) = STORED_MESSAGES w /\
   timers (snd r) = timers w /\ repeatTimer (snd r) = repeatTimer w).
Proof.
  intros e now dio io dirPath text w w1 err Hdir Hc m r.
  pose proof (ensureDirectory_frame dio dirPath w) as (_ & Hq & Hr & Ht).
  rewrite Hdir in Hq, Hr, Ht. cbn [snd] in Hq, Hr, Ht.
  assert (Hrw : r = submit io m w1)
    by (subst r; unfold writeLog; rewrite Hdir; reflexivity).
  pose proof (submit_outcome io m w1) as H. cbv zeta in H.
  fold m in Hc. rewrite Hc in H.
  pose proof (writeData_frame io m w1) as (Hq1 & Hr1 & Ht1 & _).
  split; intros Hl; rewrite Hl in H; rewrite Hrw.
  - destruct H as (H1 & H2 & _). split; [exact H1|].
    rewrite H2, Hq. reflexivity.
  - rewrite H. cbn [fst snd]. split; [reflexivity|].
    rewrite Hq1, Hr1, Ht1, Hq, Hr, Ht. repeat split.
Qed.

(* ================================================================== *)
(** ** The properties at concrete inputs *)

Lemma reachable_s1 : reachable s1.
Proof.
  exact (reach_step _ _ (reach_initial 18)
           (step_submit (initial 18) modern feb12 dir_ok lock_held
              lsd_dir big_text)).
Qed.

Lemma t0_pending : In t0 (timers (world s1)).
Proof. left. reflexivity. Qed.

Lemma reachable_s2 : reachable s2.
Proof.
  exact (reach_step _ _ reachable_s1 (step_fire s1 t0 t0_pending)).
Qed.

Example s1_queue :
  STORED_MESSAGES (world s1) = [big_message] /\
  timers (world s1) = [t0] /\ umask (world s1) = 0%Z.
Proof. vm_compute. repeat split. Qed.

Example s2_in_flight :
  in_flight s2 = [big_message] /\ STORED_MESSAGES (world s2) = [] /\
  timers (world s2) = [].
Proof. vm_compute. repeat split. Qed.

Example big_message_path :
  filePath big_message = lit "/tmp/lsd/20230212162600_big.log".
Proof. reflexivity. Qed.

Example hello_path :
  filePath (logMessageData modern feb12 lsd_dir (lit "hello"))
  = lit "/tmp/lsd/20230212162600.log".
Proof. reflexivity. Qed.

Lemma one_retry_timer_witness :
  reachable s1 /\ tryToWriteStoredData (world s1) = world s1.
Proof.
  split; [exact reachable_s1|].
  destruct (one_retry_timer s1 reachable_s1) as (_ & _ & H & _).
  apply H. vm_compute. discriminate.
Defined.

Lemma retry_requeues_witness :
  reachable s2 /\
  fst (writeData open_denied big_message (world s2)) = Rejected open_error /\
  is_file_locked open_error = false /\
  STORED_MESSAGES (world s2) = [] /\
  STORED_MESSAGES (retry_complete open_denied 0 big_message (world s2))
  = [big_message].
Proof.
  assert (Hc : fst (writeData open_denied big_message (world s2))
               = Rejected open_error) by (vm_compute; reflexivity).
  assert (Hq : STORED_MESSAGES (world s2) = []) by (vm_compute; reflexivity).
  split; [exact reachable_s2|]. split; [exact Hc|].
  split; [reflexivity|]. split; [exact Hq|].
  destruct (retry_requeues_on_every_failure s2 open_denied 0%N big_message
              open_error reachable_s2 Hc) as (H & _).
  rewrite H, Hq. reflexivity.
Defined.

Lemma writeData_rejected_witness :
  umask (world s0) = 18%Z /\
  fst (writeData stream_denied hello_message (world s0))
  = Rejected stream_error /\
  umask (snd (writeData stream_denied hello_message (world s0))) = 0%Z.
Proof.
  assert (Hc : fst (writeData stream_denied hello_message (world s0))
               = Rejected stream_error) by reflexivity.
  split; [reflexivity|]. split; [exact Hc|].
  exact (writeData_rejected_leaves_umask_0 stream_denied hello_message
           (world s0) stream_error Hc).
Defined.

Lemma writeLog_routing_witness :
  ensureDirectory dir_ok lsd_dir (world s0)
  = (None, emit (EvAccess lsd_dir) (world s0)) /\
  fst (writeData lock_held big_message (emit (EvAccess lsd_dir) (world s0)))
  = Rejected lock_error /\
  fst (writeLog modern feb12 dir_ok lock_held lsd_dir big_text (world s0))
  = Resolved /\
  STORED_MESSAGES
    (snd (writeLog modern feb12 dir_ok lock_held lsd_dir big_text (world s0)))
  = [big_message].
Proof.
  assert (Hd : ensureDirectory dir_ok lsd_dir (world s0)
               = (None, emit (EvAccess lsd_dir) (world s0))) by reflexivity.
  assert (Hc : fst (writeData lock_held big_message
                      (emit (EvAccess lsd_dir) (world s0)))
               = Rejected lock_error) by (vm_compute; reflexivity).
  split; [exact Hd|]. split; [exact Hc|].
  destruct (writeLog_routing modern feb12 dir_ok lock_held lsd_dir big_text
              (world s0) _ lock_error Hd Hc) as (H & _).
  destruct (H eq_refl) as (H1 & H2).
  split; [exact H1|]. rewrite H2. reflexivity.
Defined.

Lemma threshold_witness :
  JS.length accented_text <= MAX_MESSAGE_SIZE /\
  MAX_MESSAGE_SIZE < utf8_length accented_text /\
  isLargeData (logMessageData modern feb12 lsd_dir accented_text) = false.
Proof.
  assert (H1 : JS.length accented_text <= MAX_MESSAGE_SIZE)
    by (apply Nat.leb_le; vm_compute; reflexivity).
  assert (H2 : MAX_MESSAGE_SIZE < utf8_length accented_text)
    by (apply Nat.ltb_lt; vm_compute; reflexivity).
  split; [exact H1|]. split; [exact H2|].
  apply (threshold_counts_code_units modern feb12 lsd_dir accented_text
           all_ok (world s0) H1 H2).
Defined.

(* ================================================================== *)
(** ** Further properties: the log of calls *)

Lemma added_refl : forall w, added w w [].
Proof. intros w. unfold added. rewrite app_nil_r. reflexivity. Qed.

Lemma added_trans : forall a b c t1 t2,
  added a b t1 -> added b c t2 -> added a c (t1 ++ t2).
Proof.
  unfold added. intros a b c t1 t2 H1 H2.
  rewrite H2, H1, app_assoc. reflexivity.
Qed.

Lemma added_emit : forall e w, added w (emit e w) [e].
Proof. intros. reflexivity. Qed.

Lemma written_app : forall a b, written (a ++ b) = written a ++ written b.
Proof. intros. unfold written. apply flat_map_app. Qed.

Lemma opened_app : forall a b, opened (a ++ b) = opened a ++ opened b.
Proof. intros. unfold opened. apply flat_map_app. Qed.

(** What one [tryToWriteStoredData] may add: a [clearInterval] or a
    [setTimeout], never a file operation. *)
Lemma tryToWriteStoredData_quiet : forall w,
  let w' := tryToWriteStoredData w in
  umask w' = umask w /\ open_handles w' = open_handles w /\
  exists tr, added w w' tr /\ written tr = [] /\ opened tr = [].
Proof.
  intros w. unfold tryToWriteStoredData.
  destruct (STORED_MESSAGES w).
  - cbn. repeat split. eexists. split; [reflexivity|split; reflexivity].
  - destruct (repeatTimer w).
    + repeat split. exists []. split; [apply added_refl|split; reflexivity].
    + cbn. repeat split. eexists. split; [reflexivity|split; reflexivity].
Qed.

Lemma retry_begin_quiet : forall w,
  let w' := snd (retry_begin w) in
  umask w' = umask w /\ open_handles w' = open_handles w /\
  exists tr, added w w' tr /\ written tr = [] /\ opened tr = [].
Proof.
  intros w. unfold retry_begin. cbn.
  destruct (STORED_MESSAGES w); cbn; repeat split;
    eexists; (split; [reflexivity|split; reflexivity]).
Qed.

Lemma retry_end_quiet : forall clock data c w,
  let w' := retry_end clock data c w in
  umask w' = umask w /\ open_handles w' = open_handles w /\
  exists tr, added w w' tr /\ written tr = [] /\ opened tr = [].
Proof.
  intros clock data c w. unfold retry_end.
  destruct c as [|err|].
  - destruct (STORED_MESSAGES w).
    + repeat split. exists []. split; [apply added_refl|split; reflexivity].
    + apply tryToWriteStoredData_quiet.
  - cbn [STORED_MESSAGES set_queue emit].
    match goal with
    | |- context [tryToWriteStoredData ?x] =>
        destruct (tryToWriteStoredData_quiet x) as (Hu & Hh & tr & Ha & Hw & Ho)
    end.
    cbv zeta. rewrite Hu, Hh. repeat split.
    eexists. split.
    + eapply added_trans; [|exact Ha]. reflexivity.
    + rewrite written_app, opened_app, Hw, Ho. split; reflexivity.
  - repeat split. exists []. split; [apply added_refl|split; reflexivity].
Qed.

Lemma ensureDirectory_calls : forall dio dirPath w,
  let w' := snd (ensureDirectory dio dirPath w) in
  open_handles w' = open_handles w /\
  exists tr, added w w' tr /\ forallb is_dir_call tr = true.
Proof.
  intros dio dirPath w. unfold ensureDirectory.
  destruct (io_access dio) as [[code fileError]|].
  - destruct (js_eqb code (lit "ENOENT")).
    + destruct (io_mkdir dio); [|destruct (io_chmod dio)];
        cbn; (split; [reflexivity|]); unfold added; cbn; flat_log;
        eexists; (split; [reflexivity|reflexivity]).
    + cbn. split; [reflexivity|]. eexists. split; reflexivity.
  - cbn. split; [reflexivity|]. eexists. split; reflexivity.
Qed.

(** One write attempt: the outcome is decided by the answers; the file of
    the message is opened, once; the record is the message and the line
    terminator, handed over at most once, and exactly once on success. *)
Lemma writeData_resolved_iff : forall io m w,
  fst (writeData io m w) = Resolved <-> io_succeeds io (isLargeData m) = true.
Proof.
  intros io [p t large] w. destruct large; io_cases io; run_data;
    cbv [io_succeeds io_open io_lock io_write io_unlock io_stream];
    split; intros H; try discriminate H; reflexivity.
Qed.

Lemma writeData_attempt : forall io m w,
  exists tr,
    added w (snd (writeData io m w)) tr /\
    opened tr = [filePath m] /\
    (written tr = [message m ++ EOL] \/ written tr = []) /\
    (fst (writeData io m w) = Resolved -> written tr = [message m ++ EOL]) /\
    (isLargeData m = true -> io_open io = None -> io_lock io <> None ->
     written tr = []).
Proof.
  intros io [p t large] w. destruct large; io_cases io; run_data;
    flat_log; eexists;
    (split; [reflexivity|]);
    (split; [reflexivity|]);
    (split; [first [left; reflexivity|right; reflexivity]|]);
    (split; [intros H; first [discriminate H|reflexivity]|]);
    intros H1 H2 H3; first [discriminate H1|discriminate H2|congruence
                           |reflexivity].
Qed.

Lemma writeData_locked_iff : forall io m w,
  (exists err, fst (writeData io m w) = Rejected err /\
               is_file_locked err = true) <->
  (isLargeData m = true /\ io_open io = None /\ io_lock io <> None).
Proof.
  intros io [p t large] w. destruct large; io_cases io; run_data;
    (split;
     [intros (err & He & Hl); inversion He; subst; try discriminate Hl;
      repeat split; congruence
     |intros (H1 & H2 & H3); try discriminate H1; try discriminate H2;
      try congruence; eexists; split; reflexivity]).
Qed.

Lemma js_eqb_eq : forall a b, js_eqb a b = true <-> a = b.
Proof.
  intros a b. unfold js_eqb.
  destruct (list_eq_dec N.eq_dec a b); split; congruence.
Qed.

(* ================================================================== *)
(** ** Further properties: submission *)

(** X1: [writeLog] goes on to the write exactly when the directory is
    accessible, or is missing (ENOENT) and both its creation and the
    [chmod] succeed; [mkdir] is requested, with mode 0o777, exactly when the
    access check answered ENOENT, and [chmod] exactly when that [mkdir]
    succeeded. *)
Theorem ensureDirectory_passes_iff : forall dio dirPath w,
  (fst (ensureDirectory dio dirPath w) = None <->
   (io_access dio = None \/
    ((exists text, io_access dio = Some (lit "ENOENT", text)) /\
     io_mkdir dio = None /\ io_chmod dio = None))) /\
  exists tr,
    added w (snd (ensureDirectory dio dirPath w)) (EvAccess dirPath :: tr) /\
    (In (EvMkdir dirPath 511) tr <->
     exists text, io_access dio = Some (lit "ENOENT", text)) /\
    (In (EvChmod dirPath 511) tr <->
     (exists text, io_access dio = Some (lit "ENOENT", text)) /\
     io_mkdir dio = None).
Proof.
  intros dio dirPath w. unfold ensureDirectory.
  destruct dio as [[[code fileError]|] mk ch]; cbn [io_access io_mkdir io_chmod].
  - destruct (js_eqb code (lit "ENOENT")) eqn:E.
    + apply js_eqb_eq in E. subst code.
      assert (Hen : exists text : js_string,
                 Some (lit "ENOENT", fileError) = Some (lit "ENOENT", text))
        by (eexists; reflexivity).
      destruct mk as [mkErr|]; [|destruct ch as [chErr|]]; cbn [fst snd].
      * split.
        { split; [intros H; discriminate H|].
          intros [H|(_ & H & _)]; discriminate H. }
        unfold added. cbn. flat_log. eexists. split; [reflexivity|].
        split; split.
        -- intros _. exact Hen.
        -- intros _. left. reflexivity.
        -- intros [H|[]]. discriminate H.
        -- intros (_ & H). discriminate H.
      * split.
        { split; [intros H; discriminate H|].
          intros [H|(_ & _ & H)]; discriminate H. }
        unfold added. cbn. flat_log. eexists. split; [reflexivity|].
        split; split.
        -- intros _. exact Hen.
        -- intros _. left. reflexivity.
        -- intros _. split; [exact Hen|reflexivity].
        -- intros _. right. left. reflexivity.
      * split.
        { split; [|reflexivity].
          intros _. right. split; [exact Hen|split; reflexivity]. }
        unfold added. cbn. flat_log. eexists. split; [reflexivity|].
        split; split.
        -- intros _. exact Hen.
        -- intros _. left. reflexivity.
        -- intros _. split; [exact Hen|reflexivity].
        -- intros _. right. left. reflexivity.
    + assert (Hne : forall text,
                 Some (code, fileError) <> Some (lit "ENOENT", text)).
      { intros text H. injection H as -> _.
        assert (js_eqb (lit "ENOENT") (lit "ENOENT") = true)
          by (apply js_eqb_eq; reflexivity).
        congruence. }
      cbn [fst snd]. split.
      * split; [intros H; discriminate H|].
        intros [H|((text & H) & _)]; [discriminate H|].
        exfalso. exact (Hne text H).
      * unfold added. cbn. exists []. split; [reflexivity|].
        split; split.
        -- intros [].
        -- intros (text & H). exfalso. exact (Hne text H).
        -- intros [].
        -- intros ((text & H) & _). exfalso. exact (Hne text H).
  - cbn [fst snd]. split.
    + split; [intros _; left; reflexivity|reflexivity].
    + unfold added. cbn. exists []. split; [reflexivity|].
      split; split.
      * intros [].
      * intros (text & H). discriminate H.
      * intros [].
      * intros ((text & H) & _). discriminate H.
Qed.

(** X2: when the directory check fails, [writeLog] rejects with that
    [Error] and has done nothing but the directory calls: no file is
    opened, nothing is written, the umask, the retry queue and the timer are
    untouched. *)
Theorem writeLog_directory_failure :
  forall e now dio io dirPath text w err,
  fst (ensureDirectory dio dirPath w) = Some err ->
  let r := writeLog e now dio io dirPath text w in
  fst r = Rejected err /\
  (exists reason, err = Error reason) /\
  umask (snd r) = umask w /\
  STORED_MESSAGES (snd r) = STORED_MESSAGES w /\
  timers (snd r) = timers w /\ repeatTimer (snd r) = repeatTimer w /\
  exists tr,
    added w (snd r) tr /\ forallb is_dir_call tr = true /\
    opened tr = [] /\ written tr = [].
Proof.
  intros e now dio io dirPath text w err Hd r.
  pose proof (ensureDirectory_frame dio dirPath w) as (Hu & Hq & Hr & Ht).
  pose proof (ensureDirectory_calls dio dirPath w) as (_ & tr & Ha & Hdir).
  assert (Hr' : r = (Rejected err, snd (ensureDirectory dio dirPath w))).
  { subst r. unfold writeLog.
    destruct (ensureDirectory dio dirPath w) as [[err'|] w1];
      cbn [fst snd] in *; congruence. }
  rewrite Hr'. cbn [fst snd].
  split; [reflexivity|].
  split.
  { clear - Hd. unfold ensureDirectory in Hd.
    destruct (io_access dio) as [[code fileError]|]; [|discriminate Hd].
    destruct (js_eqb code (lit "ENOENT")).
    - destruct (io_mkdir dio); [|destruct (io_chmod dio)];
        cbn in Hd; try discriminate Hd; injection Hd as <-;
        eexists; reflexivity.
    - cbn in Hd. injection Hd as <-. eexists. reflexivity. }
  repeat (split; [assumption|]).
  exists tr. split; [exact Ha|]. split; [exact Hdir|].
  clear - Hdir. induction tr as [|ev tr IH]; [split; reflexivity|].
  cbn in Hdir. apply andb_true_iff in Hdir as [Hev Htr].
  destruct (IH Htr) as [Ho Hw].
  destruct ev; try discriminate Hev; cbn; split; assumption.
Qed.

(** X3: in a run where the file system answers every request, [writeLog]
    resolves exactly when the directory check passes and either the write
    goes through or the message is a large one whose file was opened and
    whose lock was refused. *)
Theorem writeLog_resolves_iff : forall e now dio io dirPath text w,
  let m := logMessageData e now dirPath text in
  let r := writeLog e now dio io dirPath text w in
  fst r = Resolved <->
  fst (ensureDirectory dio dirPath w) = None /\
  (io_succeeds io (isLargeData m) = true \/
   (isLargeData m = true /\ io_open io = None /\ io_lock io <> None)).
Proof.
  intros e now dio io dirPath text w m r. subst r. unfold writeLog.
  destruct (ensureDirectory dio dirPath w) as [[err|] w1]; cbn [fst snd].
  { split; [discriminate|intros [H _]; discriminate H]. }
  fold m.
  pose proof (submit_outcome io m w1) as H. cbv zeta in H.
  pose proof (writeData_settles io m w1) as Hs.
  pose proof (writeData_resolved_iff io m w1) as Hok.
  pose proof (writeData_locked_iff io m w1) as Hlk.
  destruct (fst (writeData io m w1)) as [|err|] eqn:Ec; [| |congruence].
  - rewrite H. cbn [fst].
    split; [intros _; split; [reflexivity|left; apply Hok; reflexivity]
           |reflexivity].
  - destruct (is_file_locked err) eqn:El.
    + destruct H as (H1 & _). rewrite H1.
      split; [|reflexivity].
      intros _. split; [reflexivity|]. right. apply Hlk.
      exists err. split; [reflexivity|exact El].
    + rewrite H. cbn [fst].
      split; [discriminate|].
      intros (_ & [Hsucc|Hlocked]).
      * apply Hok in Hsucc. discriminate Hsucc.
      * apply Hlk in Hlocked as (err' & He & Hl).
        injection He as <-. congruence.
Qed.

(** X4: a message of at most 4096 code units never enters the retry queue
    and never starts the timer, whatever the file system answers; its
    submission resolves exactly when the directory check passes and the
    append stream finishes. *)
Theorem small_message_never_queued :
  forall e now dio io dirPath text w,
  JS.length text <= MAX_MESSAGE_SIZE ->
  let r := writeLog e now dio io dirPath text w in
  STORED_MESSAGES (snd r) = STORED_MESSAGES w /\
  timers (snd r) = timers w /\ repeatTimer (snd r) = repeatTimer w /\
  (fst r = Resolved <->
   fst (ensureDirectory dio dirPath w) = None /\ io_stream io = None).
Proof.
  intros e now dio io dirPath text w Hlen r.
  set (m := logMessageData e now dirPath text).
  assert (Hs : isLargeData m = false).
  { subst m. rewrite logMessageData_large. apply Nat.ltb_ge. exact Hlen. }
  pose proof (ensureDirectory_frame dio dirPath w) as (_ & Hq & Hr & Ht).
  subst r. unfold writeLog.
  destruct (ensureDirectory dio dirPath w) as [[err|] w1];
    cbn [fst snd] in *.
  { repeat (split; [assumption|]).
    split; [discriminate|intros [H _]; discriminate H]. }
  fold m.
  pose proof (submit_outcome io m w1) as H. cbv zeta in H.
  pose proof (writeData_frame io m w1) as (Hq1 & Hr1 & Ht1 & _).
  pose proof (writeData_resolved_iff io m w1) as Hok.
  pose proof (writeData_locked_iff io m w1) as Hlk.
  rewrite Hs in Hok.
  assert (Hstream : io_succeeds io false = true <-> io_stream io = None).
  { unfold io_succeeds. destruct (io_stream io); split; congruence. }
  destruct (fst (writeData io m w1)) as [|err|] eqn:Ec.
  - rewrite H. cbn [fst snd]. rewrite Hq1, Hr1, Ht1.
    repeat (split; [assumption|]).
    split; [intros _; split; [reflexivity|]|reflexivity].
    apply Hstream, Hok. reflexivity.
  - destruct (is_file_locked err) eqn:El.
    + exfalso.
      assert (Hx : isLargeData m = true /\ io_open io = None /\
                   io_lock io <> None).
      { apply Hlk. exists err. split; [reflexivity|exact El]. }
      destruct Hx as (Hx & _). congruence.
    + rewrite H. cbn [fst snd]. rewrite Hq1, Hr1, Ht1.
      repeat (split; [assumption|]).
      split; [discriminate|].
      intros (_ & Hst). apply Hstream, Hok in Hst. discriminate Hst.
  - rewrite H. cbn [fst snd]. rewrite Hq1, Hr1, Ht1.
    repeat (split; [assumption|]).
    split; [discriminate|].
    intros (_ & Hst). apply Hstream, Hok in Hst. discriminate Hst.
Qed.

(** X5: a small and a large submission never target the same file,
    whatever their directories and times: the unlocked appends and the
    lock-guarded appends are kept apart. *)
Theorem small_and_large_files_differ :
  forall e1 now1 dir1 text1 e2 now2 dir2 text2,
  JS.length text1 <= MAX_MESSAGE_SIZE ->
  MAX_MESSAGE_SIZE < JS.length text2 ->
  filePath (logMessageData e1 now1 dir1 text1)
  <> filePath (logMessageData e2 now2 dir2 text2).
Proof.
  intros e1 now1 dir1 text1 e2 now2 dir2 text2 H1 H2 Heq.
  unfold MAX_MESSAGE_SIZE in H1, H2.
  destruct (logMessageData_small_path e1 now1 dir1 text1 H1) as (_ & _ & Hn).
  destruct (logMessageData_large_path e2 now2 dir2 text2 H2) as (_ & _ & Hb).
  apply Hn. rewrite Heq. exact Hb.
Qed.

(* ================================================================== *)
(** ** Further properties: runs of the retry cycle *)

Lemma tryToWriteStoredData_scheduled : forall w,
  timer_agrees w -> scheduled (tryToWriteStoredData w).
Proof.
  intros w Ha Hne. rewrite tryToWriteStoredData_queue in Hne.
  destruct (repeatTimer w) as [id|] eqn:Er.
  - rewrite tryToWriteStoredData_pending by congruence.
    unfold timer_agrees in Ha. rewrite Er in Ha. rewrite Ha. discriminate.
  - destruct (tryToWriteStoredData_schedules w Hne Er) as (_ & Ht & _).
    rewrite Ht. intros H. apply app_eq_nil in H as [_ H]. discriminate H.
Qed.

Lemma retry_end_scheduled : forall clock data c w,
  timer_inv w -> c <> Pending -> scheduled (retry_end clock data c w).
Proof.
  intros clock data c w Hinv Hc.
  destruct c as [|err|]; [| |congruence].
  - unfold retry_end. destruct (STORED_MESSAGES w) eqn:E.
    + intros Hne. congruence.
    + apply tryToWriteStoredData_scheduled, timer_inv_agrees, Hinv.
  - intros _. apply (retry_end_rejected clock data err w Hinv).
Qed.

Lemma retry_end_queue : forall clock data c w,
  STORED_MESSAGES (retry_end clock data c w) =
    match c with
    | Rejected _ => data :: STORED_MESSAGES w
    | _ => STORED_MESSAGES w
    end.
Proof.
  intros clock data c w. unfold retry_end. destruct c as [|err|].
  - destruct (STORED_MESSAGES w) eqn:E; [exact E|].
    rewrite tryToWriteStoredData_queue. exact E.
  - cbn [STORED_MESSAGES set_queue emit].
    rewrite tryToWriteStoredData_queue. reflexivity.
  - reflexivity.
Qed.

Lemma retry_complete_as_end : forall io clock data w,
  retry_complete io clock data w
  = retry_end clock data (fst (writeData io data w))
      (snd (writeData io data w)).
Proof.
  intros. unfold retry_complete. destruct (writeData io data w); reflexivity.
Qed.

(** One whole tick from a state with its timer pending. *)
Lemma tick_step : forall io clock w t,
  timer_inv w -> In t (timers w) ->
  exists data rest tr,
    STORED_MESSAGES w = data :: rest /\
    timer_inv (tick io clock t w) /\
    scheduled (tick io clock t w) /\
    STORED_MESSAGES (tick io clock t w) =
      (if io_succeeds io (isLargeData data) then rest else data :: rest) /\
    added w (tick io clock t w) tr /\
    opened tr = [filePath data] /\
    (io_succeeds io (isLargeData data) = true ->
     written tr = [message data ++ EOL]) /\
    (isLargeData data = true -> io_open io = None -> io_lock io <> None ->
     written tr = []).
Proof.
  intros io clock w t Hinv Hin.
  destruct (tick_queue io clock w t Hinv Hin)
    as (data & rest & Hq & Htick & Hqueue).
  pose proof (fire_inv w t Hinv Hin) as Hinv1.
  set (w1 := snd (retry_begin (expire t w))) in *.
  pose proof (writeData_frame io data w1) as (Hf & Hr & Hts & _).
  assert (Hinv2 : timer_inv (snd (writeData io data w1)))
    by (apply (timer_inv_frame w1); assumption).
  pose proof (writeData_settles io data w1) as Hset.
  pose proof (writeData_resolved_iff io data w1) as Hok.
  destruct (retry_begin_quiet (expire t w)) as (_ & _ & tr1 & Ha1 & Hw1 & Ho1).
  fold w1 in Ha1.
  destruct (writeData_attempt io data w1)
    as (tr2 & Ha2 & Ho2 & _ & Hw2 & Hw2').
  destruct (retry_end_quiet clock data (fst (writeData io data w1))
              (snd (writeData io data w1)))
    as (_ & _ & tr3 & Ha3 & Hw3 & Ho3).
  exists data, rest, (tr1 ++ tr2 ++ tr3).
  split; [exact Hq|].
  rewrite Htick. rewrite retry_complete_as_end.
  split; [rewrite <- retry_complete_as_end;
          apply retry_complete_inv; exact Hinv1|].
  split; [apply retry_end_scheduled; assumption|].
  split.
  { rewrite <- retry_complete_as_end, <- Htick, Hqueue.
    destruct (fst (writeData io data w1)) as [|err|] eqn:Ec.
    - destruct Hok as [Hok _]. rewrite (Hok eq_refl). reflexivity.
    - destruct (io_succeeds io (isLargeData data)) eqn:Es; [|reflexivity].
      destruct Hok as [_ Hok]. discriminate (Hok eq_refl).
    - congruence. }
  split.
  { apply (added_trans w w1); [exact Ha1|].
    apply (added_trans w1 (snd (writeData io data w1))); assumption. }
  split.
  { repeat rewrite opened_app. rewrite Ho1, Ho2, Ho3. reflexivity. }
  split.
  { intros Hs. repeat rewrite written_app. rewrite Hw1, Hw3.
    rewrite Hw2 by (apply Hok; exact Hs). reflexivity. }
  intros Hl Hop Hlk. repeat rewrite written_app.
  rewrite Hw1, Hw3, (Hw2' Hl Hop Hlk). reflexivity.
Qed.

(** C8: the timer that fires was set with a delay of 100; its callback
    pops exactly the head of the queue, leaving the rest, and a whole tick
    takes at most that one message off the queue and makes one write
    attempt, on the file of the popped message, writing its record (the
    message and the line terminator) when the attempt succeeds; after the
    write of a popped message the queue is what it was (the write succeeded)
    or has that one message back in front (it failed); then a timer is
    pending, with the delay of 100, exactly when the queue is non-empty, and
    otherwise the handle is cleared and none is pending; and a submission
    whose first write finds the file locked appends its message at the
    tail. *)
Theorem retry_cycle : forall s,
  reachable s ->
  let w := world s in
  (forall t, In t (timers w) ->
     timer_delay t = 100%Z /\
     exists data rest,
       STORED_MESSAGES w = data :: rest /\
       fst (retry_begin (expire t w)) = Some data /\
       STORED_MESSAGES (snd (retry_begin (expire t w))) = rest /\
       timers (snd (retry_begin (expire t w))) = [] /\
       forall io clock,
         STORED_MESSAGES (tick io clock t w) =
           match fst (writeData io data (snd (retry_begin (expire t w))))
           with
           | Rejected _ => data :: rest
           | _ => rest
           end /\
         exists tr,
           added w (tick io clock t w) tr /\
           opened tr = [filePath data] /\
           (fst (writeData io data (snd (retry_begin (expire t w))))
            = Resolved ->
            written tr = [message data ++ EOL])) /\
  (forall io clock data,
     let w' := retry_complete io clock data w in
     (fst (writeData io data w) = Resolved ->
      STORED_MESSAGES w' = STORED_MESSAGES w) /\
     (forall err, fst (writeData io data w) = Rejected err ->
      STORED_MESSAGES w' = data :: STORED_MESSAGES w) /\
     (STORED_MESSAGES w' <> [] ->
      exists id, timers w' = [mkTimer id 100] /\ repeatTimer w' = Some id) /\
     (STORED_MESSAGES w' = [] -> timers w' = [] /\ repeatTimer w' = None) /\
     exists tr,
       added w w' tr /\
       opened tr = [filePath data] /\
       (fst (writeData io data w) = Resolved ->
        written tr = [message data ++ EOL])) /\
  (forall io m err,
     fst (writeData io m w) = Rejected err -> is_file_locked err = true ->
     STORED_MESSAGES (snd (submit io m w)) = STORED_MESSAGES w ++ [m]).
Proof.
  intros s Hreach w.
  pose proof (reachable_inv s Hreach) as Hinv. fold w in Hinv.
  split.
  { intros t Hin.
    destruct (fire_pops w t Hinv Hin)
      as (Hd & data & rest & H1 & H2 & H3 & H4 & _).
    split; [exact Hd|]. exists data, rest.
    split; [exact H1|]. split; [exact H2|]. split; [exact H3|].
    split; [exact H4|].
    intros io clock.
    destruct (tick_queue io clock w t Hinv Hin)
      as (data' & rest' & Hq' & _ & Htick).
    rewrite H1 in Hq'. injection Hq' as <- <-.
    split; [exact Htick|].
    destruct (tick_step io clock w t Hinv Hin)
      as (data' & rest' & tr & Hq' & _ & _ & _ & Ha & Ho & Hw & _).
    rewrite H1 in Hq'. injection Hq' as <- <-.
    exists tr. split; [exact Ha|]. split; [exact Ho|].
    intros Hc. apply Hw. apply writeData_resolved_iff in Hc. exact Hc. }
  split.
  { intros io clock data w'.
    pose proof (retry_complete_inv io clock data w Hinv) as Hinv'.
    fold w' in Hinv'.
    pose proof (writeData_frame io data w) as (Hq & Hr & Ht & _).
    assert (Hinv1 : timer_inv (snd (writeData io data w)))
      by (apply (timer_inv_frame w); assumption).
    assert (Hw' : w' = retry_end clock data (fst (writeData io data w))
                         (snd (writeData io data w))).
    { subst w'. unfold retry_complete.
      destruct (writeData io data w); reflexivity. }
    split.
    { intros Hc. rewrite Hw', Hc.
      destruct (retry_end_resolved clock data _ Hinv1) as [H _].
      rewrite H. exact Hq. }
    split.
    { intros err Hc. rewrite Hw', Hc.
      destruct (retry_end_rejected clock data err _ Hinv1) as [H _].
      rewrite H, Hq. reflexivity. }
    split.
    { intros Hne.
      assert (Hpend : repeatTimer w' <> None).
      { pose proof (writeData_settles io data w) as Hs.
        rewrite Hw' in Hne |- *.
        destruct (fst (writeData io data w)) as [|err|]; [| |congruence].
        - unfold retry_end in Hne |- *.
          destruct (STORED_MESSAGES (snd (writeData io data w))) eqn:E;
            [rewrite E in Hne; congruence|].
          pose proof (tryToWriteStoredData_inv _ (timer_inv_agrees _ Hinv1))
            as [Ha' _].
          intros Hn. rewrite Hn in Ha'.
          assert (Hne1 : STORED_MESSAGES (snd (writeData io data w)) <> [])
            by (rewrite E; discriminate).
          destruct (repeatTimer (snd (writeData io data w))) eqn:Er.
          + rewrite tryToWriteStoredData_pending in Hn by congruence.
            congruence.
          + destruct (tryToWriteStoredData_schedules _ Hne1 Er) as (Hx & _).
            congruence.
        - destruct (retry_end_rejected clock data err _ Hinv1)
            as (_ & [Ha' _] & Hts).
          intros Hn. rewrite Hn in Ha'. contradiction. }
      destruct Hinv' as [Ha' _].
      destruct (repeatTimer w') as [id|]; [|congruence].
      exists id. split; [exact Ha'|reflexivity]. }
    split.
    { intros He. destruct Hinv' as [Ha' Hq'].
      assert (Hr' : repeatTimer w' = None).
      { destruct (repeatTimer w') eqn:E; [|reflexivity].
        exfalso. apply Hq'; [discriminate|exact He]. }
      rewrite Hr' in Ha'. split; assumption. }
    destruct (writeData_attempt io data w) as (tr1 & Ha1 & Ho1 & _ & Hw1 & _).
    destruct (retry_end_quiet clock data (fst (writeData io data w))
                (snd (writeData io data w)))
      as (_ & _ & tr2 & Ha2 & Hw2 & Ho2).
    rewrite <- Hw' in Ha2.
    exists (tr1 ++ tr2).
    split; [apply (added_trans w (snd (writeData io data w))); assumption|].
    rewrite opened_app, written_app, Ho1, Ho2, Hw2.
    split; [reflexivity|].
    intros Hc. rewrite (Hw1 Hc). reflexivity. }
  intros io m err Hc Hl.
  pose proof (submit_outcome io m w) as H. cbv zeta in H.
  rewrite Hc, Hl in H. destruct H as (_ & H & _). exact H.
Qed.

Lemma retry_cycle_witness :
  reachable s1 /\ timer_delay t0 = 100%Z /\
  fst (retry_begin (expire t0 (world s1))) = Some big_message /\
  exists tr,
    added (world s1) (tick all_ok 1676219163100%N t0 (world s1)) tr /\
    opened tr = [filePath big_message].
Proof.
  split; [exact reachable_s1|].
  destruct (retry_cycle s1 reachable_s1) as (H & _).
  destruct (H t0 t0_pending)
    as (Hd & data & rest & Hq & Hpop & _ & _ & Htick).
  assert (E : STORED_MESSAGES (world s1) = [big_message])
    by (vm_compute; reflexivity).
  rewrite E in Hq. injection Hq as <- <-.
  split; [exact Hd|]. split; [exact Hpop|].
  destruct (Htick all_ok 1676219163100%N) as (_ & tr & Ha & Ho & _).
  exists tr. split; assumption.
Defined.

Lemma empty_queue_idle : forall w,
  timer_inv w -> STORED_MESSAGES w = [] ->
  timers w = [] /\ repeatTimer w = None.
Proof.
  intros w [Ha Hq] He.
  destruct (repeatTimer w) eqn:E.
  - exfalso. apply Hq; [discriminate|exact He].
  - split; [exact Ha|reflexivity].
Qed.

(** X6: draining. From a state whose queue has its timer pending, if the
    write of every queued message succeeds at its turn, then after as many
    ticks as there are messages the queue is empty and no timer is left;
    exactly the files of the queued messages were opened and exactly their
    records written, one per tick, in queue order. *)
Theorem drain_fifo : forall rounds w,
  timer_inv w -> scheduled w ->
  Forall2 (fun round m => io_succeeds (fst round) (isLargeData m) = true)
    rounds (STORED_MESSAGES w) ->
  let w' := run_ticks rounds w in
  STORED_MESSAGES w' = [] /\ timers w' = [] /\ repeatTimer w' = None /\
  exists tr,
    added w w' tr /\
    opened tr = map filePath (STORED_MESSAGES w) /\
    written tr = map (fun m => message m ++ EOL) (STORED_MESSAGES w).
Proof.
  induction rounds as [|[io clock] rounds IH]; intros w Hinv Hsch Hall.
  - assert (Hq : STORED_MESSAGES w = []) by (inversion Hall; reflexivity).
    cbn.
    destruct (empty_queue_idle w Hinv Hq) as [Ht Hr].
    repeat (split; [assumption|]).
    exists []. split; [apply added_refl|]. rewrite Hq. split; reflexivity.
  - destruct (STORED_MESSAGES w) as [|m q] eqn:Eq;
      [inversion Hall|].
    assert (Hm : io_succeeds io (isLargeData m) = true)
      by (inversion Hall; assumption).
    assert (Hrest : Forall2
                      (fun round m => io_succeeds (fst round) (isLargeData m)
                                      = true) rounds q)
      by (inversion Hall; assumption).
    assert (Hne : STORED_MESSAGES w <> []) by (rewrite Eq; discriminate).
    cbn [run_ticks].
    destruct (timers w) as [|t ts] eqn:Et; [exfalso; apply (Hsch Hne Et)|].
    assert (Hin : In t (timers w)) by (rewrite Et; left; reflexivity).
    destruct (tick_step io clock w t Hinv Hin)
      as (data & rest & tr1 & Hq & Hinv1 & Hsch1 & Hq1 & Ha1 & Ho1 & Hw1 & _).
    rewrite Eq in Hq. injection Hq as <- <-.
    rewrite Hm in Hq1. specialize (Hw1 Hm).
    rewrite <- Hq1 in Hrest.
    destruct (IH (tick io clock t w) Hinv1 Hsch1 Hrest)
      as (H1 & H2 & H3 & tr2 & Ha2 & Ho2 & Hw2).
    repeat (split; [assumption|]).
    exists (tr1 ++ tr2).
    split; [apply (added_trans w (tick io clock t w)); assumption|].
    rewrite opened_app, written_app, Ho1, Hw1, Ho2, Hw2, Hq1.
    split; reflexivity.
Qed.

(** X7: head-of-line retry. While the write of the message at the head
    keeps failing, any number of ticks leaves the queue exactly as it was
    with the timer pending again; each tick attempts the head's file and no
    message behind it is attempted. *)
Theorem failing_head_blocks_queue : forall rounds w data rest,
  timer_inv w -> scheduled w ->
  STORED_MESSAGES w = data :: rest ->
  Forall (fun round => io_succeeds (fst round) (isLargeData data) = false)
    rounds ->
  let w' := run_ticks rounds w in
  STORED_MESSAGES w' = data :: rest /\ timers w' <> [] /\
  exists tr,
    added w w' tr /\
    opened tr = repeat (filePath data) (List.length rounds).
Proof.
  induction rounds as [|[io clock] rounds IH];
    intros w data rest Hinv Hsch Hq Hall.
  - cbn. split; [exact Hq|]. split.
    + apply Hsch. rewrite Hq. discriminate.
    + exists []. split; [apply added_refl|reflexivity].
  - inversion Hall as [|r rs Hr Hrest]. subst r rs. cbn [fst] in Hr.
    assert (Hne : STORED_MESSAGES w <> []) by (rewrite Hq; discriminate).
    cbn [run_ticks].
    destruct (timers w) as [|t ts] eqn:Et; [exfalso; apply (Hsch Hne Et)|].
    assert (Hin : In t (timers w)) by (rewrite Et; left; reflexivity).
    destruct (tick_step io clock w t Hinv Hin)
      as (data' & rest' & tr1 & Hq' & Hinv1 & Hsch1 & Hq1 & Ha1 & Ho1 & _ & _).
    rewrite Hq in Hq'. injection Hq' as <- <-.
    rewrite Hr in Hq1.
    destruct (IH (tick io clock t w) data rest Hinv1 Hsch1 Hq1 Hrest)
      as (H1 & H2 & tr2 & Ha2 & Ho2).
    split; [exact H1|]. split; [exact H2|].
    exists (tr1 ++ tr2).
    split; [apply (added_trans w (tick io clock t w)); assumption|].
    rewrite opened_app, Ho1, Ho2. reflexivity.
Qed.

(** A large message alone in the queue, refused the lock for some ticks
    and then served. *)
Lemma refused_then_served : forall refused w m io clock,
  timer_inv w -> scheduled w ->
  STORED_MESSAGES w = [m] -> isLargeData m = true ->
  Forall (fun round => io_open (fst round) = None /\
                       io_lock (fst round) <> None) refused ->
  io_succeeds io true = true ->
  let w' := run_ticks (refused ++ [(io, clock)]) w in
  STORED_MESSAGES w' = [] /\ timers w' = [] /\ repeatTimer w' = None /\
  exists tr,
    added w w' tr /\
    written tr = [message m ++ EOL] /\
    opened tr = repeat (filePath m) (S (List.length refused)).
Proof.
  induction refused as [|[io1 clock1] refused IH];
    intros w m io clock Hinv Hsch Hq Hl Hall Hok;
    assert (Hne : STORED_MESSAGES w <> []) by (rewrite Hq; discriminate);
    cbn [app run_ticks];
    (destruct (timers w) as [|t ts] eqn:Et; [exfalso; apply (Hsch Hne Et)|]);
    assert (Hin : In t (timers w)) by (rewrite Et; left; reflexivity).
  - destruct (tick_step io clock w t Hinv Hin)
      as (data & rest & tr & Hq' & Hinv1 & _ & Hq1 & Ha & Ho & Hw & _).
    rewrite Hq in Hq'. injection Hq' as <- <-.
    rewrite Hl, Hok in Hq1. rewrite Hl in Hw.
    destruct (empty_queue_idle _ Hinv1 Hq1) as [Ht Hr].
    repeat (split; [assumption|]).
    exists tr. split; [exact Ha|]. split; [exact (Hw Hok)|exact Ho].
  - inversion Hall as [|r rs [Hop Hlk] Hrest]. subst r rs.
    cbn [fst] in Hop, Hlk.
    destruct (tick_step io1 clock1 w t Hinv Hin)
      as (data & rest & tr1 & Hq' & Hinv1 & Hsch1 & Hq1 & Ha1 & Ho1 & _ & Hw1).
    rewrite Hq in Hq'. injection Hq' as <- <-.
    assert (Hf : io_succeeds io1 (isLargeData m) = false).
    { rewrite Hl. unfold io_succeeds. rewrite Hop.
      destruct (io_lock io1); [reflexivity|congruence]. }
    rewrite Hf in Hq1.
    destruct (IH (tick io1 clock1 t w) m io clock Hinv1 Hsch1 Hq1 Hl Hrest Hok)
      as (H1 & H2 & H3 & tr2 & Ha2 & Hw2 & Ho2).
    repeat (split; [assumption|]).
    exists (tr1 ++ tr2).
    split; [apply (added_trans w (tick io1 clock1 t w)); assumption|].
    rewrite written_app, opened_app, (Hw1 Hl Hop Hlk), Hw2, Ho1, Ho2.
    split; reflexivity.
Qed.

(** X14: delivery after contention. A large message submitted while the
    module is idle and its file is locked is accepted ([writeLog] resolves);
    if the lock is then refused on some ticks and everything succeeds on the
    next one, the message has been written exactly once, every attempt went
    to the file chosen at submission, and the module is idle again: empty
    queue, no timer. *)
Theorem locked_message_is_delivered :
  forall e now dio io0 dirPath text w refused io clock,
  timer_inv w -> STORED_MESSAGES w = [] ->
  fst (ensureDirectory dio dirPath w) = None ->
  MAX_MESSAGE_SIZE < JS.length text ->
  io_open io0 = None -> io_lock io0 <> None ->
  Forall (fun round => io_open (fst round) = None /\
                       io_lock (fst round) <> None) refused ->
  io_succeeds io true = true ->
  let m := logMessageData e now dirPath text in
  let r := writeLog e now dio io0 dirPath text w in
  let w' := run_ticks (refused ++ [(io, clock)]) (snd r) in
  fst r = Resolved /\
  STORED_MESSAGES w' = [] /\ timers w' = [] /\ repeatTimer w' = None /\
  exists tr,
    added (snd r) w' tr /\
    written tr = [text ++ EOL] /\
    opened tr = repeat (filePath m) (S (List.length refused)).
Proof.
  intros e now dio io0 dirPath text w refused io clock
    Hinv Hq Hd Hlen Hop Hlk Hall Hok m r w'.
  assert (Hl : isLargeData m = true).
  { subst m. rewrite logMessageData_large. apply Nat.ltb_lt. exact Hlen. }
  pose proof (ensureDirectory_frame dio dirPath w) as (_ & Hq0 & Hr0 & Ht0).
  assert (Hr : r = submit io0 m (snd (ensureDirectory dio dirPath w))).
  { subst r. unfold writeLog.
    destruct (ensureDirectory dio dirPath w) as [[err|] w1];
      cbn [fst snd] in *; [discriminate Hd|reflexivity]. }
  set (w1 := snd (ensureDirectory dio dirPath w)) in *.
  assert (Hinv1 : timer_inv w1) by (apply (timer_inv_frame w); assumption).
  destruct (proj2 (writeData_locked_iff io0 m w1) (conj Hl (conj Hop Hlk)))
    as (err & Hc & Hlocked).
  pose proof (submit_outcome io0 m w1) as H. cbv zeta in H.
  rewrite Hc, Hlocked in H. destruct H as (Hres & Hqueue & Hshape).
  pose proof (writeData_frame io0 m w1) as (Hq1 & Hr1 & Ht1 & _).
  assert (Hinv2 : timer_inv (snd r)).
  { rewrite Hr. apply submit_inv. exact Hinv1. }
  assert (Hsch : scheduled (snd r)).
  { rewrite Hr, Hshape. apply tryToWriteStoredData_scheduled.
    apply (timer_agrees_frame (snd (writeData io0 m w1)));
      [reflexivity|reflexivity|].
    apply timer_inv_agrees. apply (timer_inv_frame w1); assumption. }
  assert (Hqr : STORED_MESSAGES (snd r) = [m]).
  { rewrite Hr, Hqueue. rewrite Hq0, Hq. reflexivity. }
  split; [rewrite Hr; exact Hres|].
  destruct (refused_then_served refused (snd r) m io clock
              Hinv2 Hsch Hqr Hl Hall Hok)
    as (H1 & H2 & H3 & tr & Ha & Hw & Ho).
  repeat (split; [assumption|]).
  exists tr. split; [exact Ha|]. split; [|exact Ho].
  rewrite Hw. subst m. rewrite logMessageData_message. reflexivity.
Qed.

(* ================================================================== *)
(** ** Further properties: what the module leaves behind *)

Lemma writeData_umask : forall io m w,
  umask (snd (writeData io m w)) =
    match fst (writeData io m w) with
    | Resolved => umask w
    | _ => 0%Z
    end.
Proof.
  intros io [p t large] w. destruct large; io_cases io; run_data;
    reflexivity.
Qed.

Lemma submit_leaves : forall io m w,
  open_handles (snd (submit io m w)) = open_handles w /\
  (umask (snd (submit io m w)) = umask w \/
   umask (snd (submit io m w)) = 0%Z).
Proof.
  intros io m w.
  pose proof (submit_outcome io m w) as H. cbv zeta in H.
  pose proof (writeData_frame io m w) as (_ & _ & _ & _ & Hh).
  pose proof (writeData_umask io m w) as Hu.
  destruct (fst (writeData io m w)) as [|err|].
  - rewrite H. cbn [snd]. split; [exact Hh|left; exact Hu].
  - destruct (is_file_locked err).
    + destruct H as (_ & _ & ->).
      match goal with
      | |- context [tryToWriteStoredData ?x] =>
          destruct (tryToWriteStoredData_quiet x) as (Hu' & Hh' & _)
      end.
      rewrite Hu', Hh'. cbn. split; [exact Hh|right; exact Hu].
    + rewrite H. cbn [snd]. split; [exact Hh|right; exact Hu].
  - rewrite H. cbn [snd]. split; [exact Hh|right; exact Hu].
Qed.

Lemma step_leaves : forall s s',
  step s s' ->
  open_handles (world s') = open_handles (world s) /\
  (umask (world s') = umask (world s) \/ umask (world s') = 0%Z).
Proof.
  intros s s' Hstep.
  destruct Hstep
    as [s e now dio io dirPath text|s t Hin|s io clock data before after Hfl];
    cbn [world].
  - unfold writeLog.
    pose proof (ensureDirectory_frame dio dirPath (world s)) as (Hu & _).
    pose proof (ensureDirectory_calls dio dirPath (world s)) as (Hh & _).
    destruct (ensureDirectory dio dirPath (world s)) as [[err|] w1];
      cbn [fst snd] in *.
    + split; [exact Hh|left; exact Hu].
    + destruct (submit_leaves io (logMessageData e now dirPath text) w1)
        as (Hh1 & Hu1).
      rewrite Hh1, Hh, <- Hu. split; [reflexivity|exact Hu1].
  - destruct (retry_begin_quiet (expire t (world s))) as (Hu & Hh & _).
    rewrite Hu, Hh. split; [reflexivity|left; reflexivity].
  - rewrite retry_complete_as_end.
    destruct (retry_end_quiet clock data
                (fst (writeData io data (world s)))
                (snd (writeData io data (world s)))) as (Hu & Hh & _).
    pose proof (writeData_frame io data (world s)) as (_ & _ & _ & _ & Hh1).
    pose proof (writeData_umask io data (world s)) as Hu1.
    rewrite Hu, Hh, Hh1, Hu1. split; [reflexivity|].
    destruct (fst (writeData io data (world s)));
      [left|right|right]; reflexivity.
Qed.

(** X8: over any sequence of submissions, timer firings and retry
    completions, the number of file handles the process holds is what it
    was: no path of the module leaves a handle open. *)
Theorem no_handle_leak : forall s s',
  clos_refl_trans Sys step s s' ->
  open_handles (world s') = open_handles (world s).
Proof.
  intros s s' H. induction H as [s s' Hstep|s|s s1 s' _ IH1 _ IH2].
  - apply (step_leaves s s' Hstep).
  - reflexivity.
  - rewrite IH2. exact IH1.
Qed.

Lemma writeData_split : forall io m w,
  writeData io m w =
    let '(oldMask, w1) := writeData_enter w in
    let '(c, w2) := writeData_write io m w1 in
    writeData_leave oldMask c w2.
Proof.
  intros io m w. unfold writeData, writeData_enter, writeData_write,
    writeData_leave.
  destruct (process_umask 0 w) as [oldMask w1].
  destruct (isLargeData m).
  - destruct (writeToFileWithLock io (filePath m) (message m) w1)
      as [[|err|] w2]; reflexivity.
  - destruct (writeToFile io (filePath m) (message m) w1)
      as [[|err|] w2]; reflexivity.
Qed.

Lemma writeData_write_umask : forall io m w,
  umask (snd (writeData_write io m w)) = umask w.
Proof.
  intros io m w. unfold writeData_write. destruct (isLargeData m).
  - apply writeToFileWithLock_frame.
  - apply writeToFile_frame.
Qed.

Lemma writeData_write_resolved_iff : forall io m w,
  fst (writeData_write io m w) = Resolved <->
  io_succeeds io (isLargeData m) = true.
Proof.
  intros io [p t large] w. unfold writeData_write.
  cbn [isLargeData filePath message].
  destruct large; io_cases io; run_writer;
    cbv [io_succeeds io_open io_lock io_write io_unlock io_stream];
    split; intros H; try discriminate H; reflexivity.
Qed.

Lemma writeData_leave_umask : forall oldMask c w,
  umask (snd (writeData_leave oldMask c w)) =
    match c with
    | Resolved => oldMask
    | _ => umask w
    end.
Proof. intros oldMask [|err|] w; reflexivity. Qed.

(** The masks in play, for overlapping calls started at the mask [mask]:
    the process umask and every saved [oldMask] are [mask] or 0. *)
Lemma ostep_masks : forall mask s s',
  ostep s s' ->
  (umask (o_world s) = mask \/ umask (o_world s) = 0%Z) /\
  Forall (fun call => fst call = mask \/ fst call = 0%Z) (o_calls s) ->
  (umask (o_world s') = mask \/ umask (o_world s') = 0%Z) /\
  Forall (fun call => fst call = mask \/ fst call = 0%Z) (o_calls s').
Proof.
  intros mask s s' Hstep [Hu Hc].
  destruct Hstep as [s m|s io oldMask m before after Hcalls];
    cbn [o_world o_calls].
  - split; [right; reflexivity|].
    constructor; [exact Hu|exact Hc].
  - rewrite Hcalls in Hc. apply Forall_app in Hc as [Hb Ha].
    inversion Ha as [|call rest Hold Hafter]. subst call rest.
    cbn [fst] in Hold.
    split; [|apply Forall_app; split; assumption].
    rewrite writeData_leave_umask, writeData_write_umask.
    destruct (fst (writeData_write io m (o_world s))); assumption.
Qed.

(** X9: however calls of [writeData] overlap at their [await], the process
    umask is at every moment either the mask found before the first call or
    0: the module installs no other mask. It need not come back to the mask
    found: from any state, when two calls overlap and the one that entered
    second resolves after the first has left, every call has completed and
    the umask is 0, whatever it was before and whatever the outcome of the
    first call. *)
Theorem umask_under_overlap : forall w,
  (forall s',
     clos_refl_trans Overlap ostep (mkOverlap w []) s' ->
     umask (o_world s') = umask w \/ umask (o_world s') = 0%Z) /\
  (forall ioA ioB mA mB,
     io_succeeds ioB (isLargeData mB) = true ->
     clos_refl_trans Overlap ostep (mkOverlap w [])
       (mkOverlap (overlapped ioA ioB mA mB w) []) /\
     umask (overlapped ioA ioB mA mB w) = 0%Z).
Proof.
  intros w. split.
  - intros s' H.
    assert (G : forall a b,
               clos_refl_trans Overlap ostep a b ->
               (umask (o_world a) = umask w \/ umask (o_world a) = 0%Z) /\
               Forall (fun call => fst call = umask w \/ fst call = 0%Z)
                 (o_calls a) ->
               (umask (o_world b) = umask w \/ umask (o_world b) = 0%Z) /\
               Forall (fun call => fst call = umask w \/ fst call = 0%Z)
                 (o_calls b)).
    { intros a b Hab.
      induction Hab as [a b Hstep|a|a b c _ IH1 _ IH2]; intros Ha.
      - exact (ostep_masks (umask w) a b Hstep Ha).
      - exact Ha.
      - apply IH2, IH1, Ha. }
    apply (G _ _ H). cbn [o_world o_calls].
    split; [left; reflexivity|constructor].
  - intros ioA ioB mA mB HB.
    set (s0 := mkOverlap w []).
    set (s1 := mkOverlap (snd (writeData_enter w)) [(umask w, mA)]).
    set (w2 := snd (writeData_enter (o_world s1))).
    set (s2 := mkOverlap w2 [(0%Z, mB); (umask w, mA)]).
    set (w3 := snd (writeData_leave (umask w)
                      (fst (writeData_write ioA mA w2))
                      (snd (writeData_write ioA mA w2)))).
    set (s3 := mkOverlap w3 [(0%Z, mB)]).
    set (w4 := snd (writeData_leave 0%Z
                      (fst (writeData_write ioB mB w3))
                      (snd (writeData_write ioB mB w3)))).
    assert (E : overlapped ioA ioB mA mB w = w4).
    { unfold overlapped. subst w4 w3 w2 s1. cbn [o_world].
      unfold writeData_enter, process_umask. cbn [fst snd umask emit].
      destruct (writeData_write ioA mA _) as [cA wa]. cbn [fst snd].
      destruct (writeData_leave (umask w) cA wa) as [cA' wa'].
      cbn [fst snd].
      destruct (writeData_write ioB mB wa') as [cB wb]. cbn [fst snd].
      destruct (writeData_leave 0 cB wb) as [cB' wb']. reflexivity. }
    rewrite E. split.
    + apply rt_trans with (y := s1);
        [apply rt_step; exact (ostep_enter s0 mA)|].
      apply rt_trans with (y := s2);
        [apply rt_step; exact (ostep_enter s1 mB)|].
      apply rt_trans with (y := s3); apply rt_step.
      * exact (ostep_leave s2 ioA (umask w) mA [(0%Z, mB)] [] eq_refl).
      * exact (ostep_leave s3 ioB 0%Z mB [] [] eq_refl).
    + subst w4. rewrite writeData_leave_umask.
      apply (writeData_write_resolved_iff ioB mB w3) in HB.
      rewrite HB. reflexivity.
Qed.

(** The queue after a submission: the message is appended exactly when
    the directory check passed and the file of a large message was opened
    and its lock refused. *)
Lemma writeLog_queue : forall e now dio io dirPath text w,
  let m := logMessageData e now dirPath text in
  let w' := snd (writeLog e now dio io dirPath text w) in
  let refused :=
    fst (ensureDirectory dio dirPath w) = None /\ isLargeData m = true /\
    io_open io = None /\ io_lock io <> None in
  (refused /\ STORED_MESSAGES w' = STORED_MESSAGES w ++ [m]) \/
  (~ refused /\ STORED_MESSAGES w' = STORED_MESSAGES w).
Proof.
  intros e now dio io dirPath text w m w' refused.
  subst w' refused. unfold writeLog.
  pose proof (ensureDirectory_frame dio dirPath w) as (_ & Hq & _).
  destruct (ensureDirectory dio dirPath w) as [[err|] w1];
    cbn [fst snd] in *.
  { right. split; [intros (H & _); discriminate H|exact Hq]. }
  fold m.
  pose proof (submit_outcome io m w1) as H. cbv zeta in H.
  pose proof (writeData_frame io m w1) as (Hq1 & _).
  pose proof (writeData_locked_iff io m w1) as Hlk.
  destruct (fst (writeData io m w1)) as [|err|] eqn:Ec.
  - right. split.
    + intros (_ & Hc). apply Hlk in Hc as (err & He & _). discriminate He.
    + rewrite H. cbn [snd]. rewrite Hq1. exact Hq.
  - destruct (is_file_locked err) eqn:El.
    + left. split.
      * split; [reflexivity|]. apply Hlk.
        exists err. split; [reflexivity|exact El].
      * destruct H as (_ & H & _). rewrite H, Hq. reflexivity.
    + right. split.
      * intros (_ & Hc). apply Hlk in Hc as (err' & He & Hl).
        injection He as <-. congruence.
      * rewrite H. cbn [snd]. rewrite Hq1. exact Hq.
  - right. split.
    + intros (_ & Hc). apply Hlk in Hc as (err & He & _). discriminate He.
    + rewrite H. cbn [snd]. rewrite Hq1. exact Hq.
Qed.

(** X10: no retry message is lost or duplicated. From a reachable state
    every event is one of three, with these effects on the messages queued
    or being written:
    - a submission appends its own message to the queue exactly when its
      directory check passed and the file of its large message was opened
      and its lock refused, and otherwise leaves the queue as it was;
    - a firing of the timer moves the head of the queue to the messages
      being written;
    - the completion of a retry write takes its message off the messages
      being written, and puts it back at the head of the queue exactly when
      that write was rejected; the queue is untouched when it resolved.
    So a message leaves the module only through its own resolved write. *)
Theorem pool_conserved : forall s s',
  reachable s -> step s s' ->
  (exists e now dio io dirPath text,
     let m := logMessageData e now dirPath text in
     let refused :=
       fst (ensureDirectory dio dirPath (world s)) = None /\
       isLargeData m = true /\ io_open io = None /\ io_lock io <> None in
     world s' = snd (writeLog e now dio io dirPath text (world s)) /\
     in_flight s' = in_flight s /\
     ((refused /\
       STORED_MESSAGES (world s') = STORED_MESSAGES (world s) ++ [m] /\
       Permutation (pool s') (m :: pool s)) \/
      (~ refused /\
       STORED_MESSAGES (world s') = STORED_MESSAGES (world s) /\
       pool s' = pool s))) \/
  (exists t data rest,
     In t (timers (world s)) /\
     world s' = snd (retry_begin (expire t (world s))) /\
     STORED_MESSAGES (world s) = data :: rest /\
     STORED_MESSAGES (world s') = rest /\
     in_flight s' = data :: in_flight s /\
     Permutation (pool s') (pool s)) \/
  (exists io clock data before after,
     in_flight s = before ++ data :: after /\
     world s' = retry_complete io clock data (world s) /\
     in_flight s' = before ++ after /\
     ((fst (writeData io data (world s)) = Resolved /\
       STORED_MESSAGES (world s') = STORED_MESSAGES (world s) /\
       Permutation (pool s) (data :: pool s')) \/
      (exists err,
         fst (writeData io data (world s)) = Rejected err /\
         STORED_MESSAGES (world s') = data :: STORED_MESSAGES (world s) /\
         Permutation (pool s') (pool s)))).
Proof.
  intros s s' Hreach Hstep.
  pose proof (reachable_inv s Hreach) as Hinv.
  destruct Hstep
    as [s e now dio io dirPath text|s t Hin|s io clock data before after Hfl].
  - left. exists e, now, dio, io, dirPath, text. cbv zeta.
    cbn [world in_flight]. split; [reflexivity|]. split; [reflexivity|].
    destruct (writeLog_queue e now dio io dirPath text (world s))
      as [[Hc Hq]|[Hc Hq]].
    + left. split; [exact Hc|]. split; [exact Hq|].
      unfold pool. cbn [world in_flight]. rewrite Hq.
      rewrite <- app_assoc. cbn [app].
      apply Permutation_sym, Permutation_middle.
    + right. split; [exact Hc|]. split; [exact Hq|].
      unfold pool. cbn [world in_flight]. rewrite Hq. reflexivity.
  - right. left.
    destruct (fire_pops (world s) t Hinv Hin)
      as (_ & data & rest & Eq & Hpop & Hrest & _).
    exists t, data, rest. cbn [world in_flight].
    split; [exact Hin|]. split; [reflexivity|]. split; [exact Eq|].
    split; [exact Hrest|]. rewrite Hpop. split; [reflexivity|].
    unfold pool. cbn [world in_flight]. rewrite Hrest, Eq.
    cbn [app]. apply Permutation_sym, Permutation_middle.
  - right. right. exists io, clock, data, before, after.
    cbn [world in_flight].
    split; [exact Hfl|]. split; [reflexivity|]. split; [reflexivity|].
    pose proof (writeData_frame io data (world s)) as (Hq & _).
    pose proof (writeData_settles io data (world s)) as Hs.
    assert (Hqueue : STORED_MESSAGES (retry_complete io clock data (world s))
                     = match fst (writeData io data (world s)) with
                       | Rejected _ => data :: STORED_MESSAGES (world s)
                       | _ => STORED_MESSAGES (world s)
                       end).
    { rewrite retry_complete_as_end, retry_end_queue, Hq. reflexivity. }
    unfold pool. cbn [world in_flight]. rewrite Hqueue, Hfl.
    destruct (fst (writeData io data (world s))) as [|err|] eqn:Ec;
      [| |congruence].
    + left. split; [reflexivity|]. split; [reflexivity|].
      rewrite app_assoc.
      rewrite (app_assoc (STORED_MESSAGES (world s)) before after).
      apply Permutation_sym, Permutation_middle.
    + right. exists err. split; [reflexivity|]. split; [reflexivity|].
      cbn [app]. rewrite app_assoc.
      rewrite (app_assoc (STORED_MESSAGES (world s)) before (data :: after)).
      apply Permutation_middle.
Qed.

(* ================================================================== *)
(** ** Further properties: bucket names *)







(* ================================================================== *)
(** ** Further properties: the lock-guarded writer *)

(** X12: once the lock has been granted, the record is the first thing
    written and an unlock and a close are requested afterwards, whether the
    write succeeds or not; when everything succeeds the calls are exactly
    open, lock, write, unlock, close, in that order; when the file was not
    opened or the lock was refused, nothing is written and no unlock is
    requested. *)
Theorem lock_released_after_grant : forall io path text w,
  exists tr,
    added w (snd (writeToFileWithLock io path text w))
      (EvOpen path FILE_PERMISSION :: tr) /\
    (io_open io = None /\ io_lock io = None ->
     exists rest,
       tr = EvFlock LOCK_EX_NB :: EvWrite (text ++ EOL) :: rest /\
       existsb is_unlock rest = true /\ existsb is_close rest = true /\
       written rest = []) /\
    (io_succeeds io true = true ->
     tr = [EvFlock LOCK_EX_NB; EvWrite (text ++ EOL); EvFlock LOCK_UN;
           EvClose; EvSettle Resolved]) /\
    (io_open io <> None \/ io_lock io <> None ->
     written tr = [] /\ existsb is_unlock tr = false).
Proof.
  intros io path text w.
  io_cases io; run_writer; flat_log; eexists;
    (split; [reflexivity|]);
    cbv [io_succeeds io_open io_lock io_write io_unlock];
    (split; [intros [H1 H2];
             first [discriminate H1|discriminate H2
                   |eexists; split; [reflexivity|repeat split]]|]);
    (split; [intros H; first [discriminate H|reflexivity]|]);
    intros [H|H]; first [congruence|split; reflexivity].
Qed.

(** X13: when the write under the lock fails, the writer rejects with the
    write error (no FILE_LOCKED code), whatever the unlock that follows
    answers: the later settling by the unlock callback is ignored; the
    handle is closed. *)
Theorem write_failure_is_reported : forall io path text w err,
  io_open io = None -> io_lock io = None -> io_write io = Some err ->
  let x := writeToFileWithLock_exec io path text w in
  ex_promise x =
    Rejected (LogException
                (lit "Can not write to file " ++ dq ++ path ++ dq
                 ++ lit ". Error: " ++ err) None) /\
  ex_open x = false /\
  open_handles (ex_world x) = open_handles w /\
  exists tr c,
    added w (ex_world x) tr /\
    filter is_settle tr = [EvSettle (ex_promise x); EvSettle c] /\
    c <> ex_promise x.
Proof.
  intros io path text w err Ho Hl Hw.
  destruct io as [s o l wr u]. cbn in Ho, Hl, Hw. subst o l wr.
  destruct s, u; run_writer; flat_log;
    (split; [reflexivity|]); (split; [reflexivity|]);
    (split; [reflexivity|]);
    eexists; eexists; (split; [reflexivity|]);
    (split; [reflexivity|discriminate]).
Qed.

(* ================================================================== *)
(** ** The further properties at concrete inputs *)

Lemma reachable_s1b : reachable s1b.
Proof.
  exact (reach_step _ _ reachable_s1
           (step_submit s1 modern feb12 dir_ok lock_held lsd_dir big_text2)).
Qed.

Lemma s1b_queue :
  STORED_MESSAGES (world s1b) = [big_message; big_message2].
Proof. vm_compute. reflexivity. Qed.

Lemma s1b_scheduled : scheduled (world s1b).
Proof. intros _. vm_compute. discriminate. Qed.

Lemma s0_to_s1b : clos_refl_trans Sys step s0 s1b.
Proof.
  apply rt_trans with (y := s1); apply rt_step.
  - exact (step_submit s0 modern feb12 dir_ok lock_held lsd_dir big_text).
  - exact (step_submit s1 modern feb12 dir_ok lock_held lsd_dir big_text2).
Qed.

Lemma writeLog_directory_failure_witness :
  fst (ensureDirectory dir_denied lsd_dir (world s1b))
  = Some (Error (lit "Not enough permissions to create path " ++ dq
                 ++ lsd_dir ++ dq ++ lit ". Error: Error: EACCES")) /\
  STORED_MESSAGES
    (snd (writeLog modern feb12 dir_denied all_ok lsd_dir (lit "hello")
            (world s1b)))
  = [big_message; big_message2].
Proof.
  assert (Hd : fst (ensureDirectory dir_denied lsd_dir (world s1b))
               = Some (Error (lit "Not enough permissions to create path "
                              ++ dq ++ lsd_dir ++ dq
                              ++ lit ". Error: Error: EACCES")))
    by reflexivity.
  split; [exact Hd|].
  destruct (writeLog_directory_failure modern feb12 dir_denied all_ok
              lsd_dir (lit "hello") (world s1b) _ Hd)
    as (_ & _ & _ & Hq & _).
  rewrite Hq. exact s1b_queue.
Defined.

Lemma small_message_never_queued_witness :
  JS.length (lit "hello") <= MAX_MESSAGE_SIZE /\
  STORED_MESSAGES
    (snd (writeLog modern feb12 dir_ok lock_held lsd_dir (lit "hello")
            (world s0)))
  = [].
Proof.
  assert (Hl : JS.length (lit "hello") <= MAX_MESSAGE_SIZE)
    by (apply Nat.leb_le; reflexivity).
  split; [exact Hl|].
  destruct (small_message_never_queued modern feb12 dir_ok lock_held
              lsd_dir (lit "hello") (world s0) Hl) as (Hq & _).
  rewrite Hq. reflexivity.
Defined.

Lemma small_and_large_files_differ_witness :
  JS.length (lit "hello") <= MAX_MESSAGE_SIZE /\
  MAX_MESSAGE_SIZE < JS.length big_text /\
  filePath hello_message <> filePath big_message.
Proof.
  assert (H1 : JS.length (lit "hello") <= MAX_MESSAGE_SIZE)
    by (apply Nat.leb_le; reflexivity).
  assert (H2 : MAX_MESSAGE_SIZE < JS.length big_text)
    by (apply Nat.ltb_lt; vm_compute; reflexivity).
  split; [exact H1|]. split; [exact H2|].
  exact (small_and_large_files_differ modern feb12 lsd_dir (lit "hello")
           modern feb12 lsd_dir big_text H1 H2).
Defined.

Lemma drain_fifo_witness :
  timer_inv (world s1b) /\ scheduled (world s1b) /\
  STORED_MESSAGES (run_ticks two_rounds_ok (world s1b)) = [] /\
  timers (run_ticks two_rounds_ok (world s1b)) = [].
Proof.
  pose proof (reachable_inv s1b reachable_s1b) as Hinv.
  assert (Hall : Forall2
                   (fun round m =>
                      io_succeeds (fst round) (isLargeData m) = true)
                   two_rounds_ok (STORED_MESSAGES (world s1b))).
  { rewrite s1b_queue. repeat constructor. }
  split; [exact Hinv|]. split; [exact s1b_scheduled|].
  destruct (drain_fifo two_rounds_ok (world s1b) Hinv s1b_scheduled Hall)
    as (H1 & H2 & _).
  split; assumption.
Defined.

Lemma failing_head_blocks_queue_witness :
  Forall (fun round =>
            io_succeeds (fst round) (isLargeData big_message) = false)
    three_rounds_locked /\
  STORED_MESSAGES (run_ticks three_rounds_locked (world s1b))
  = [big_message; big_message2].
Proof.
  assert (Hall : Forall (fun round =>
                           io_succeeds (fst round) (isLargeData big_message)
                           = false) three_rounds_locked)
    by (repeat constructor).
  split; [exact Hall|].
  destruct (failing_head_blocks_queue three_rounds_locked (world s1b)
              big_message [big_message2]
              (reachable_inv s1b reachable_s1b) s1b_scheduled s1b_queue Hall)
    as (H & _).
  exact H.
Defined.

Lemma no_handle_leak_witness :
  clos_refl_trans Sys step s0 s1b /\ open_handles (world s1b) = 0.
Proof.
  split; [exact s0_to_s1b|].
  rewrite (no_handle_leak s0 s1b s0_to_s1b). reflexivity.
Defined.

Lemma umask_under_overlap_witness :
  umask (world s0) = 18%Z /\
  io_succeeds all_ok (isLargeData hello_message) = true /\
  fst (writeData_write all_ok big_message
         (snd (writeData_enter (snd (writeData_enter (world s0))))))
  = Resolved /\
  umask (overlapped all_ok all_ok big_message hello_message (world s0))
  = 0%Z.
Proof.
  split; [reflexivity|]. split; [reflexivity|].
  split; [vm_compute; reflexivity|].
  destruct (umask_under_overlap (world s0)) as (_ & H).
  destruct (H all_ok all_ok big_message hello_message eq_refl) as (_ & Hu).
  exact Hu.
Defined.

Lemma pool_conserved_witness :
  reachable s1 /\ step s1 s2 /\ Permutation (pool s2) (pool s1).
Proof.
  assert (Hstep : step s1 s2) by exact (step_fire s1 t0 t0_pending).
  split; [exact reachable_s1|]. split; [exact Hstep|].
  destruct (pool_conserved s1 s2 reachable_s1 Hstep)
    as [(e & now & dio & io & dirPath & text & _ & Hfl & _)
       |[(t & data & rest & _ & _ & _ & _ & _ & H)
        |(io & clock & data & before & after & Hfl & _)]].
  - vm_compute in Hfl. discriminate Hfl.
  - exact H.
  - destruct before; discriminate Hfl.
Defined.


Lemma write_failure_is_reported_witness :
  io_open disk_full = None /\ io_lock disk_full = None /\
  io_write disk_full = Some (lit "ENOSPC") /\
  is_file_locked
    (match ex_promise (writeToFileWithLock_exec disk_full
                         (filePath big_message) big_text (world s0)) with
     | Rejected err => err
     | _ => lock_error
     end) = false.
Proof.
  split; [reflexivity|]. split; [reflexivity|]. split; [reflexivity|].
  destruct (write_failure_is_reported disk_full (filePath big_message)
              big_text (world s0) (lit "ENOSPC") eq_refl eq_refl eq_refl)
    as (H & _).
  rewrite H. reflexivity.
Defined.

Lemma locked_message_is_delivered_witness :
  timer_inv (world s0) /\
  MAX_MESSAGE_SIZE < JS.length big_text /\
  Forall (fun round => io_open (fst round) = None /\
                       io_lock (fst round) <> None) one_round_locked /\
  STORED_MESSAGES
    (run_ticks (one_round_locked ++ [(all_ok, 1676219163200%N)])
       (snd (writeLog modern feb12 dir_ok lock_held lsd_dir big_text
               (world s0))))
  = [].
Proof.
  pose proof (reachable_inv s0 (reach_initial 18)) as Hinv.
  assert (Hlen : MAX_MESSAGE_SIZE < JS.length big_text)
    by (apply Nat.ltb_lt; vm_compute; reflexivity).
  assert (Hlk : io_lock lock_held <> None) by discriminate.
  assert (Hall : Forall (fun round => io_open (fst round) = None /\
                                      io_lock (fst round) <> None)
                   one_round_locked)
    by (repeat constructor; discriminate).
  split; [exact Hinv|]. split; [exact Hlen|]. split; [exact Hall|].
  destruct (locked_message_is_delivered modern feb12 dir_ok lock_held
              lsd_dir big_text (world s0) one_round_locked all_ok
              1676219163200%N Hinv eq_refl eq_refl Hlen eq_refl Hlk Hall
              eq_refl) as (_ & H & _).
  exact H.
Defined.
